(** * Task scheduler: store, validator, scheduler and recovery

    A shallow embedding of the dependency-aware execution engine:
    - [src/types/task.ts]        the task record and its status enum,
    - [src/storage/database.ts]  [DatabaseManager], the SQLite-backed store,
    - [src/engine/validator.ts]  [TaskValidator], submission checks, cycle
                                 detection and initial status,
    - [src/engine/executor.ts]   [TaskExecutor], the polling scheduler, the
                                 runner continuation and crash recovery.
    - [src/api/routes.ts]        the handlers of [POST /tasks] and
                                 [GET /stats].

    Modelling conventions.
    - The [tasks] table is the list of its rows in rowid (insertion) order.
      The [PRIMARY KEY] constraint on [id] is the predicate [store_wf].
    - JavaScript numbers that hold timestamps, durations, counters and
      versions are integers of [Z]; none of them gets near 2^53.
    - An optional field ([started_at?: number], a nullable column) is an
      [option]; [None] is [undefined] on the JavaScript side and [NULL] on
      the SQL side.
    - [Date.now()] is an argument of the operation that reads the clock.
    - The process is single threaded: every synchronous stretch of code
      (a scheduler pass up to the first [await] of each [executeTask], the
      continuation of one [executeTask] after its [await], one HTTP
      submission) is one atomic step of the system.
    - Logging and event emission have no effect on the modelled state and
      are taken not to throw; the store operations are total (a failing
      SQLite call is outside the model). *)

From Stdlib Require Import ZArith Ascii String List Permutation Sorted.
From stdpp Require Import gmap strings list.

Import ListNotations.
Local Open Scope Z_scope.
Set Warnings "-clear-no-such-hyp".

(** ** [src/types/task.ts] *)

Inductive TaskStatus : Type :=
  | QUEUED | RUNNING | COMPLETED | FAILED | WAITING.

Definition TaskStatus_eqb (a b : TaskStatus) : bool :=
  match a, b with
  | QUEUED, QUEUED | RUNNING, RUNNING | COMPLETED, COMPLETED
  | FAILED, FAILED | WAITING, WAITING => true
  | _, _ => false
  end.

Record Task : Type := mkTask {
  id : string;
  type : string;
  duration_ms : Z;
  dependencies : list string;
  status : TaskStatus;
  created_at : Z;
  started_at : option Z;
  completed_at : option Z;
  error : option string;
  retry_count : option Z
}.

Record TaskInput : Type := mkTaskInput {
  in_id : string;
  in_type : string;
  in_duration_ms : Z;
  in_dependencies : option (list string)
}.

(** [Partial<Task>] as [updateTaskStatus] reads it: only these four keys
    are consulted, and a key that is absent or [undefined] is [None]. *)
Record Updates : Type := mkUpdates {
  u_started_at : option Z;
  u_completed_at : option Z;
  u_error : option string;
  u_retry_count : option Z
}.

Definition no_updates : Updates := mkUpdates None None None None.

(** ** [src/storage/database.ts] *)

(** One row of the [tasks] table. *)
Record Row : Type := mkRow {
  row_id : string;
  row_type : string;
  row_duration_ms : Z;
  row_dependencies : list string;
  row_status : TaskStatus;
  row_created_at : Z;
  row_started_at : option Z;
  row_completed_at : option Z;
  row_error : option string;
  row_retry_count : option Z;
  row_version : Z
}.

Definition Store : Type := list Row.

(** [id TEXT PRIMARY KEY]: no two rows share an id. *)
Definition store_wf (s : Store) : Prop := List.NoDup (map row_id s).

(** JavaScript [x || undefined] on an optional number or string: a falsy
    value ([0], the empty string) becomes [undefined]. *)
Definition truthyZ (o : option Z) : option Z :=
  match o with
  | Some z => if z =? 0 then None else Some z
  | None => None
  end.

Definition truthyString (o : option string) : option string :=
  match o with
  | Some s => if String.eqb s EmptyString then None else Some s
  | None => None
  end.

(** [row.retry_count || 0] *)
Definition orZero (o : option Z) : option Z :=
  match o with
  | Some z => Some z
  | None => Some 0
  end.

Definition rowToTask (row : Row) : Task :=
  {| id := row_id row;
     type := row_type row;
     duration_ms := row_duration_ms row;
     dependencies := row_dependencies row;
     status := row_status row;
     created_at := row_created_at row;
     started_at := truthyZ (row_started_at row);
     completed_at := truthyZ (row_completed_at row);
     error := truthyString (row_error row);
     retry_count := orZero (row_retry_count row) |}.

(** The row written by [insertTask]: [task.x || null] for the optional
    columns, [task.retry_count || 0], and version 0. *)
Definition taskToRow (task : Task) : Row :=
  {| row_id := id task;
     row_type := type task;
     row_duration_ms := duration_ms task;
     row_dependencies := dependencies task;
     row_status := status task;
     row_created_at := created_at task;
     row_started_at := truthyZ (started_at task);
     row_completed_at := truthyZ (completed_at task);
     row_error := truthyString (error task);
     row_retry_count := orZero (retry_count task);
     row_version := 0 |}.

(** [SELECT * FROM tasks WHERE id = ?] followed by [stmt.get]. *)
Definition selectById (s : Store) (taskId : string) : option Row :=
  List.find (fun r => String.eqb (row_id r) taskId) s.

(** [insertTask]: a primary-key collision leaves the table as it is.  The
    result is [false] when the driver reports the collision under the code
    that the [catch] block tests for; if it does not, the error reaches the
    route instead, with the same table. *)
Definition insertTask (s : Store) (task : Task) : Store * bool :=
  match selectById s (id task) with
  | Some _ => (s, false)
  | None => (s ++ [taskToRow task], true)
  end.

Definition getTask (s : Store) (taskId : string) : option Task :=
  option_map rowToTask (selectById s taskId).

Definition getTaskWithVersion (s : Store) (taskId : string)
  : option (Task * Z) :=
  option_map (fun row => (rowToTask row, row_version row)) (selectById s taskId).

(** A stable sort on an integer key.  It stands for [ORDER BY created_at
    ASC] (rows with equal keys come out in rowid order, as a scan of
    [idx_created_at] yields them) and for [Array.prototype.sort] with the
    comparator [(a, b) => a.created_at - b.created_at] (stable since
    ES2019). *)
Section StableSort.
Context {A : Type} (key : A -> Z).

Fixpoint insertByKey (x : A) (l : list A) : list A :=
  match l with
  | [] => [x]
  | y :: l' => if key x <=? key y then x :: y :: l'
               else y :: insertByKey x l'
  end.

Fixpoint sortByKey (l : list A) : list A :=
  match l with
  | [] => []
  | x :: l' => insertByKey x (sortByKey l')
  end.
End StableSort.

Definition orderByCreatedAt (s : list Row) : list Row :=
  sortByKey row_created_at s.

Definition getAllTasks (s : Store) : list Task :=
  map rowToTask (orderByCreatedAt s).

Definition getTasksByStatus (s : Store) (st : TaskStatus) : list Task :=
  map rowToTask
    (orderByCreatedAt
       (List.filter (fun r => TaskStatus_eqb (row_status r) st) s)).

(** The [SET] clause of [updateTaskStatus]: status and version always,
    each optional column only when its key is not [undefined]. *)
Definition applyUpdate (newStatus : TaskStatus) (updates : Updates)
    (r : Row) : Row :=
  {| row_id := row_id r;
     row_type := row_type r;
     row_duration_ms := row_duration_ms r;
     row_dependencies := row_dependencies r;
     row_status := newStatus;
     row_created_at := row_created_at r;
     row_started_at :=
       match u_started_at updates with
       | Some v => Some v | None => row_started_at r end;
     row_completed_at :=
       match u_completed_at updates with
       | Some v => Some v | None => row_completed_at r end;
     row_error :=
       match u_error updates with
       | Some v => Some v | None => row_error r end;
     row_retry_count :=
       match u_retry_count updates with
       | Some v => Some v | None => row_retry_count r end;
     row_version := row_version r + 1 |}.

(** The [WHERE id = ? AND version = ?] clause. *)
Definition whereIdVersion (taskId : string) (currentVersion : Z)
    (r : Row) : bool :=
  String.eqb (row_id r) taskId && (row_version r =? currentVersion).

(** [updateTaskStatus]: the [UPDATE] touches every row the [WHERE] clause
    selects; the result is [result.changes > 0]. *)
Definition updateTaskStatus (s : Store) (taskId : string)
    (newStatus : TaskStatus) (currentVersion : Z) (updates : Updates)
  : Store * bool :=
  (map (fun r => if whereIdVersion taskId currentVersion r
                 then applyUpdate newStatus updates r else r) s,
   existsb (whereIdVersion taskId currentVersion) s).

Definition isCompleted (t : Task) : bool :=
  TaskStatus_eqb (status t) COMPLETED.

(** [new Set(tasks.filter(t => t.status === COMPLETED).map(t => t.id))] *)
Definition completedIds (tasks : list Task) : gset string :=
  list_to_set (map id (List.filter isCompleted tasks)).

Definition allDepsIn (done : gset string) (deps : list string) : bool :=
  forallb (fun depId => bool_decide (depId ∈ done)) deps.

(** The callback of the second [filter] in [getReadyTasks]. *)
Definition isReady (completedTaskIds : gset string) (task : Task) : bool :=
  if negb (TaskStatus_eqb (status task) QUEUED)
     && negb (TaskStatus_eqb (status task) WAITING)
  then false
  else allDepsIn completedTaskIds (dependencies task).

Definition getReadyTasks (s : Store) : list Task :=
  let tasks := getAllTasks s in
  let completedTaskIds := completedIds tasks in
  List.filter (isReady completedTaskIds) tasks.

Definition getOrphanedTasks (s : Store) : list Task :=
  getTasksByStatus s RUNNING.

(** ** [src/engine/validator.ts] *)

(** The result object [{ valid, error? }]. *)
Record Validation : Type := mkValidation {
  valid : bool;
  v_error : option string
}.

Definition accepted : Validation := mkValidation true None.
Definition rejected (msg : string) : Validation := mkValidation false (Some msg).

(** [depId.trim() === ''] over 8-bit characters: tab, line feed, vertical
    tab, form feed, carriage return and space are stripped. *)
Definition isWhiteSpace (c : ascii) : bool :=
  let n := nat_of_ascii c in
  ((9 <=? n)%nat && (n <=? 13)%nat) || (n =? 32)%nat.

Fixpoint isBlank (s : string) : bool :=
  match s with
  | EmptyString => true
  | String c s' => isWhiteSpace c && isBlank s'
  end.

(** The [Map<string, string[]>] of [detectCycle]. *)
Definition buildGraph (tasks : list Task) : gmap string (list string) :=
  fold_left (fun graph task => <[id task := dependencies task]> graph) tasks ∅.

(** [hasCycle] is a depth-first search that threads the mutable [visited]
    set through its recursive calls; the embedding returns the set next to
    the answer.  The recursion of the source is bounded by the number of
    graph keys not yet visited; here it is structural on [fuel], [None]
    means the fuel ran out, and [hasCycle_terminates] shows that the fuel
    [detectCycle] supplies always suffices.

    [anyDep] is the loop [for (const dep of dependencies)] with its early
    [return true]. *)
Fixpoint anyDep (rec : string -> gset string -> option (bool * gset string))
    (deps : list string) (visited : gset string)
  : option (bool * gset string) :=
  match deps with
  | [] => Some (false, visited)
  | dep :: rest =>
      match rec dep visited with
      | None => None
      | Some (true, visited') => Some (true, visited')
      | Some (false, visited') => anyDep rec rest visited'
      end
  end.

Fixpoint hasCycle (fuel : nat) (current target : string)
    (graph : gmap string (list string)) (visited : gset string)
  : option (bool * gset string) :=
  match fuel with
  | O => None
  | S fuel' =>
      if String.eqb current target then Some (true, visited)
      else if bool_decide (current ∈ visited) then Some (false, visited)
      else
        let visited1 := {[current]} ∪ visited in
        match graph !! current with
        | None => Some (false, visited1)
        | Some deps =>
            anyDep (fun dep v => hasCycle fuel' dep target graph v)
                   deps visited1
        end
  end.

Definition cycleMessage (newTaskId depId : string) : string :=
  ("Adding task " ++ newTaskId
   ++ " would create a circular dependency with " ++ depId)%string.

(** The loop of [detectCycle] over [newDependencies]; every search starts
    from a fresh [new Set()]. *)
Fixpoint detectCycleLoop (fuel : nat) (newTaskId : string)
    (graph : gmap string (list string)) (deps : list string) : Validation :=
  match deps with
  | [] => accepted
  | depId :: rest =>
      match hasCycle fuel depId newTaskId graph ∅ with
      | Some (true, _) => rejected (cycleMessage newTaskId depId)
      | _ => detectCycleLoop fuel newTaskId graph rest
      end
  end.

Definition detectCycle (s : Store) (newTaskId : string)
    (newDependencies : list string) : Validation :=
  let graph := <[newTaskId := newDependencies]> (buildGraph (getAllTasks s)) in
  detectCycleLoop (S (size graph)) newTaskId graph newDependencies.

(** The loop of [validateTaskInput] over the dependencies: the first
    offending element decides the message. *)
Fixpoint checkDependencies (s : Store) (taskId : string)
    (deps : list string) : option string :=
  match deps with
  | [] => None
  | depId :: rest =>
      if String.eqb depId EmptyString || isBlank depId then
        Some "Dependency IDs must be non-empty strings"%string
      else if String.eqb depId taskId then
        Some "Task cannot depend on itself"%string
      else
        match getTask s depId with
        | None =>
            Some ("Dependency '" ++ depId
                  ++ "' does not exist. Please submit dependencies before dependent tasks.")%string
        | Some _ => checkDependencies s taskId rest
        end
  end.

(** [taskInput.dependencies || []] *)
Definition depsOrEmpty (taskInput : TaskInput) : list string :=
  match in_dependencies taskInput with
  | Some deps => deps
  | None => []
  end.

(** [validateTaskInput] on an input of the declared type [TaskInput]: the
    [typeof] tests always pass there, which leaves emptiness of [id] and
    [type], the sign of [duration_ms], and the store lookups. *)
Definition validateTaskInput (s : Store) (taskInput : TaskInput)
  : Validation :=
  if String.eqb (in_id taskInput) EmptyString then
    rejected "Task ID is required and must be a string"
  else if String.eqb (in_type taskInput) EmptyString then
    rejected "Task type is required and must be a string"
  else if in_duration_ms taskInput <? 0 then
    rejected "duration_ms must be a non-negative number"
  else
    match getTask s (in_id taskInput) with
    | Some _ =>
        rejected ("Task with ID " ++ in_id taskInput ++ " already exists")%string
    | None =>
        let dependencies := depsOrEmpty taskInput in
        match checkDependencies s (in_id taskInput) dependencies with
        | Some msg => rejected msg
        | None =>
            let cycleCheck := detectCycle s (in_id taskInput) dependencies in
            if negb (valid cycleCheck) then cycleCheck else accepted
        end
    end.

(** [createTask]; [now] is the value of [Date.now()]. *)
Definition createTask (s : Store) (taskInput : TaskInput) (now : Z) : Task :=
  let allTasks := getAllTasks s in
  let completedTaskIds := completedIds allTasks in
  let dependencies := depsOrEmpty taskInput in
  let status :=
    if (length dependencies =? 0)%nat then QUEUED
    else if allDepsIn completedTaskIds dependencies then QUEUED
    else WAITING in
  {| id := in_id taskInput;
     type := in_type taskInput;
     duration_ms := in_duration_ms taskInput;
     dependencies := dependencies;
     status := status;
     created_at := now;
     started_at := None;
     completed_at := None;
     error := None;
     retry_count := None |}.

(** [POST /tasks] of [src/api/routes.ts]: validate, materialize, insert.
    A rejected or colliding submission leaves the store as it is. *)
Definition submitTask (s : Store) (taskInput : TaskInput) (now : Z) : Store :=
  if valid (validateTaskInput s taskInput)
  then fst (insertTask s (createTask s taskInput now))
  else s.

(** ** [src/engine/executor.ts] *)

(** How the promise awaited in [executeTask] settles.  The reference
    runner [sleep] always resolves; [Rejected] is an exception raised in
    the [try] block before the terminal write, with the message the
    [catch] block extracts from it. *)
Inductive Outcome : Type :=
  | Resolved
  | Rejected (errorMessage : string).

(** The store handle and the fields of [TaskExecutor], together with the
    [executeTask] calls that are suspended at [await this.sleep(...)];
    each of them holds the [task] object it was called with. *)
Record System : Type := mkSystem {
  db : Store;
  maxConcurrentTasks : Z;
  runningTasks : gset string;
  isRunning : bool;
  schedulerInterval : bool;
  sleeping : list Task
}.

Definition setDb (sys : System) (s : Store) : System :=
  {| db := s;
     maxConcurrentTasks := maxConcurrentTasks sys;
     runningTasks := runningTasks sys;
     isRunning := isRunning sys;
     schedulerInterval := schedulerInterval sys;
     sleeping := sleeping sys |}.

(** [new TaskExecutor(db, maxConcurrentTasks)] *)
Definition newExecutor (s : Store) (maxc : Z) : System :=
  {| db := s;
     maxConcurrentTasks := maxc;
     runningTasks := ∅;
     isRunning := false;
     schedulerInterval := false;
     sleeping := [] |}.

Definition interruptedMessage : string :=
  "Task was interrupted by system restart".

(** The object literal [{ started_at: undefined, error: '...' }]. *)
Definition recoveryUpdates : Updates :=
  {| u_started_at := None;
     u_completed_at := None;
     u_error := Some interruptedMessage;
     u_retry_count := None |}.

Definition recoverOne (s : Store) (task : Task) : Store :=
  match getTaskWithVersion s (id task) with
  | Some (_, version) =>
      fst (updateTaskStatus s (id task) QUEUED version recoveryUpdates)
  | None => s
  end.

Definition recoverOrphanedTasks (s : Store) : Store :=
  let orphanedTasks := getOrphanedTasks s in
  if (0 <? length orphanedTasks)%nat
  then fold_left recoverOne orphanedTasks s
  else s.

(** [executeTask] up to its [await]: the claim. *)
Definition executeTask (sys : System) (task : Task) (now : Z) : System :=
  match getTaskWithVersion (db sys) (id task) with
  | None => sys
  | Some (_, version) =>
      let '(s', claimed) :=
        updateTaskStatus (db sys) (id task) RUNNING version
          {| u_started_at := Some now; u_completed_at := None;
             u_error := None; u_retry_count := None |} in
      if negb claimed then setDb sys s'
      else
        {| db := s';
           maxConcurrentTasks := maxConcurrentTasks sys;
           runningTasks := {[id task]} ∪ runningTasks sys;
           isRunning := isRunning sys;
           schedulerInterval := schedulerInterval sys;
           sleeping := sleeping sys ++ [task] |}
  end.

(** The terminal write of the [try] block or of the [catch] block. *)
Definition terminalWrite (s : Store) (task : Task) (outcome : Outcome)
    (now : Z) : Store :=
  match getTaskWithVersion s (id task) with
  | None => s
  | Some (_, version) =>
      match outcome with
      | Resolved =>
          fst (updateTaskStatus s (id task) COMPLETED version
                 {| u_started_at := None; u_completed_at := Some now;
                    u_error := None; u_retry_count := None |})
      | Rejected errorMessage =>
          fst (updateTaskStatus s (id task) FAILED version
                 {| u_started_at := None; u_completed_at := Some now;
                    u_error := Some errorMessage; u_retry_count := None |})
      end
  end.

(** [executeTask] from its [await] on: the terminal write and the
    [finally] block.  The pass that [setImmediate] requests there is a
    later [EvTick]. *)
Definition resumeTask (sys : System) (task : Task) (outcome : Outcome)
    (now : Z) : System :=
  {| db := terminalWrite (db sys) task outcome now;
     maxConcurrentTasks := maxConcurrentTasks sys;
     runningTasks := runningTasks sys ∖ {[id task]};
     isRunning := isRunning sys;
     schedulerInterval := schedulerInterval sys;
     sleeping := sleeping sys |}.

(** [readyTasks.sort(...)] followed by [slice(0, availableSlots)]. *)
Definition tasksToExecute (s : Store) (availableSlots : Z) : list Task :=
  firstn (Z.to_nat availableSlots) (sortByKey created_at (getReadyTasks s)).

(** One scheduler pass.  [clock taskId] is the [Date.now()] that the claim
    of [taskId] reads. *)
Definition scheduleNextTasks (sys : System) (clock : string -> Z) : System :=
  if negb (isRunning sys) then sys
  else
    let availableSlots :=
      maxConcurrentTasks sys - Z.of_nat (size (runningTasks sys)) in
    if availableSlots <=? 0 then sys
    else
      let readyTasks := getReadyTasks (db sys) in
      if (length readyTasks =? 0)%nat then sys
      else
        fold_left (fun acc task => executeTask acc task (clock (id task)))
                  (tasksToExecute (db sys) availableSlots) sys.

Definition start (sys : System) (clock : string -> Z) : System :=
  if isRunning sys then sys
  else
    scheduleNextTasks
      {| db := recoverOrphanedTasks (db sys);
         maxConcurrentTasks := maxConcurrentTasks sys;
         runningTasks := runningTasks sys;
         isRunning := true;
         schedulerInterval := true;
         sleeping := sleeping sys |}
      clock.

Definition stop (sys : System) : System :=
  if negb (isRunning sys) then sys
  else
    {| db := db sys;
       maxConcurrentTasks := maxConcurrentTasks sys;
       runningTasks := runningTasks sys;
       isRunning := false;
       schedulerInterval := false;
       sleeping := sleeping sys |}.

(** ** The system as [main] drives it

    [main] opens the database file, builds one executor and calls
    [start()] once; [stop()] is called by the shutdown handler only, and
    nothing calls [start()] on a stopped executor.  A process that dies
    and is started again runs [main] on the file it left behind, with a
    new executor and no suspended call.

    An event carries everything the environment chooses. *)
Definition main (s : Store) (maxc : Z) (clock : string -> Z) : System :=
  start (newExecutor s maxc) clock.

Inductive Event : Type :=
  | EvSubmit (taskInput : TaskInput) (now : Z)
  | EvTick (clock : string -> Z)
  | EvSettle (i : nat) (outcome : Outcome) (now : Z)
  | EvStop
  | EvRestart (clock : string -> Z).

(** [removeAt i l] drops the [i]-th suspended call once it has run. *)
Fixpoint removeAt {A : Type} (i : nat) (l : list A) : list A :=
  match l, i with
  | [], _ => []
  | _ :: l', O => l'
  | x :: l', S i' => x :: removeAt i' l'
  end.

Definition step (sys : System) (ev : Event) : System :=
  match ev with
  | EvSubmit taskInput now => setDb sys (submitTask (db sys) taskInput now)
  | EvTick clock => scheduleNextTasks sys clock
  | EvSettle i outcome now =>
      match nth_error (sleeping sys) i with
      | Some task =>
          let sys' := resumeTask sys task outcome now in
          {| db := db sys';
             maxConcurrentTasks := maxConcurrentTasks sys';
             runningTasks := runningTasks sys';
             isRunning := isRunning sys';
             schedulerInterval := schedulerInterval sys';
             sleeping := removeAt i (sleeping sys) |}
      | None => sys
      end
  | EvStop => stop sys
  | EvRestart clock => main (db sys) (maxConcurrentTasks sys) clock
  end.

Definition run (sys : System) (evs : list Event) : System :=
  fold_left step evs sys.

Inductive reachable (maxc : Z) : System -> Prop :=
  | reach_main s clock :
      store_wf s -> reachable maxc (main s maxc clock)
  | reach_step sys ev :
      reachable maxc sys -> reachable maxc (step sys ev).

(** ** [getStats] and the getters of the executor *)

(** [SUM(...)] of SQL: [NULL] over no rows. *)
Definition sqlSum (l : list Z) : option Z :=
  match l with
  | [] => None
  | _ :: _ => Some (fold_right Z.add 0 l)
  end.

(** [CASE WHEN status = st THEN 1 ELSE 0 END] *)
Definition caseWhenStatus (st : TaskStatus) (r : Row) : Z :=
  if TaskStatus_eqb (row_status r) st then 1 else 0.

(** [result.x || 0] on a number or [NULL]. *)
Definition numberOrZero (o : option Z) : Z :=
  match o with
  | Some z => if z =? 0 then 0 else z
  | None => 0
  end.

Record TaskStats : Type := mkTaskStats {
  total : Z;
  queued : Z;
  running : Z;
  completed : Z;
  failed : Z;
  waiting : Z
}.

Definition getStats (s : Store) : TaskStats :=
  let sumOf st := sqlSum (map (caseWhenStatus st) s) in
  {| total := numberOrZero (Some (Z.of_nat (length s)));
     queued := numberOrZero (sumOf QUEUED);
     running := numberOrZero (sumOf RUNNING);
     completed := numberOrZero (sumOf COMPLETED);
     failed := numberOrZero (sumOf FAILED);
     waiting := numberOrZero (sumOf WAITING) |}.

Definition getRunningTasksCount (sys : System) : Z :=
  Z.of_nat (size (runningTasks sys)).

(** [Array.from(this.runningTasks)]: the ids of the set.  The source
    lists them in insertion order, the model in the order of [elements];
    the elements are the same. *)
Definition getRunningTaskIds (sys : System) : list string :=
  elements (runningTasks sys).

Definition getMaxConcurrentTasks (sys : System) : Z :=
  maxConcurrentTasks sys.

(** ** [src/api/routes.ts] *)

(** The answers of [POST /tasks] that do not come from a thrown error:
    201 with the task, 400 with the validation error, 409. *)
Inductive PostResponse : Type :=
  | Created (task : Task)
  | BadRequest (error : option string)
  | Conflict (error : string).

Definition postTasks (s : Store) (taskInput : TaskInput) (now : Z)
  : Store * PostResponse :=
  let validation := validateTaskInput s taskInput in
  if negb (valid validation) then (s, BadRequest (v_error validation))
  else
    let task := createTask s taskInput now in
    let '(s', inserted) := insertTask s task in
    if negb inserted
    then (s', Conflict ("Task with ID " ++ id task ++ " already exists")%string)
    else (s', Created task).

(** The body of [GET /stats]. *)
Record StatsResponse : Type := mkStatsResponse {
  stats : TaskStats;
  max_concurrent_tasks : Z;
  currently_running : list string;
  slots_available : Z
}.

Definition getStatsRoute (sys : System) : StatsResponse :=
  let runningTaskIds := getRunningTaskIds sys in
  let maxConcurrent := getMaxConcurrentTasks sys in
  {| stats := getStats (db sys);
     max_concurrent_tasks := maxConcurrent;
     currently_running := runningTaskIds;
     slots_available := maxConcurrent - Z.of_nat (length runningTaskIds) |}.

(** ** The executor through its public interface

    [start()] and [stop()] are public, so a caller other than [main] could
    start a stopped executor again while calls are still suspended.  This
    second step function adds that event. *)
Inductive ApiEvent : Type :=
  | ApiEv (ev : Event)
  | ApiStart (clock : string -> Z).

Definition stepApi (sys : System) (e : ApiEvent) : System :=
  match e with
  | ApiEv ev => step sys ev
  | ApiStart clock => start sys clock
  end.

Definition runApi (sys : System) (es : list ApiEvent) : System :=
  fold_left stepApi es sys.

(** The events the runner of the source can produce: its promise always
    resolves. *)
Definition resolves (e : ApiEvent) : bool :=
  match e with
  | ApiEv (EvSettle _ (Rejected _) _) => false
  | _ => true
  end.

Inductive reachableApi (maxc : Z) : System -> Prop :=
  | reachApi_main s clock :
      store_wf s -> reachableApi maxc (main s maxc clock)
  | reachApi_step sys e :
      reachableApi maxc sys -> resolves e = true ->
      reachableApi maxc (stepApi sys e).

(** * Vocabulary of the properties *)

(** ** Store *)

(** The effect of a successful [UPDATE] on a keyed table: the one row
    with that id is rewritten in place. *)
Definition updateById (taskId : string) (f : Row -> Row) (s : Store) : Store :=
  map (fun r => if String.eqb (row_id r) taskId then f r else r) s.

(** What a write with status [st] and partial updates [u] makes of a row
    [r]: the version goes up by one, the status is [st], each of the four
    optional columns takes the supplied value or keeps its own, and the
    five immutable columns stay. *)
Definition written (st : TaskStatus) (u : Updates) (r r' : Row) : Prop :=
  row_version r' = row_version r + 1 /\
  row_status r' = st /\
  row_started_at r' = from_option Some (row_started_at r) (u_started_at u) /\
  row_completed_at r' = from_option Some (row_completed_at r) (u_completed_at u) /\
  row_error r' = from_option Some (row_error r) (u_error u) /\
  row_retry_count r' = from_option Some (row_retry_count r) (u_retry_count u) /\
  row_id r' = row_id r /\ row_type r' = row_type r /\
  row_duration_ms r' = row_duration_ms r /\
  row_dependencies r' = row_dependencies r /\
  row_created_at r' = row_created_at r.

(** The order a sort on [key] establishes. *)
Definition keyLe {A : Type} (key : A -> Z) (a b : A) : Prop := key a <= key b.

Definition requeue : Row -> Row := applyUpdate QUEUED recoveryUpdates.

Definition inIds (ids : list string) (r : Row) : bool :=
  existsb (String.eqb (row_id r)) ids.

Definition completedIn (s : Store) (d : string) : Prop :=
  exists r, In r s /\ row_id r = d /\ row_status r = COMPLETED.

(** Invariant I8 of the specification. *)
Definition waitingHasPendingDep (s : Store) : Prop :=
  forall r, In r s -> row_status r = WAITING ->
    exists d, In d (row_dependencies r) /\ ~ completedIn s d.

(** The order the specification names: [created_at] ascending, equal
    timestamps by id. *)
Definition createdThenId (a b : Task) : Prop :=
  created_at a < created_at b \/
  (created_at a = created_at b /\ String.leb (id a) (id b) = true).

(** ** Dependency graph *)

(** The edges of the map [hasCycle] walks: from a key to each element of
    its array. *)
Definition edge (g : gmap string (list string)) (x y : string) : Prop :=
  exists deps, g !! x = Some deps /\ In y deps.

(** The dependency graph of the store: an edge runs from a stored task to
    each of its dependencies. *)
Definition dependsOn (s : Store) (x y : string) : Prop :=
  exists r, In r s /\ row_id r = x /\ In y (row_dependencies r).

(** The graph after adding the edges [newId -> d] for [d] in [newDeps]. *)
Definition dependsOnWith (s : Store) (newId : string) (newDeps : list string)
    (x y : string) : Prop :=
  dependsOn s x y \/ (x = newId /\ In y newDeps).

(** Nodes that entered the visited set during a failed search for
    [target] are not the target and have all their successors in the
    set. *)
Definition closedNew (graph : gmap string (list string)) (target : string)
    (V V' : gset string) : Prop :=
  forall x, x ∈ V' -> x ∉ V ->
    x <> target /\ forall y, edge graph x y -> y ∈ V'.

(** What one call of [hasCycle] on [current] with visited set [V]
    guarantees about its result. *)
Definition searchPost (graph : gmap string (list string)) (target : string)
    (V : gset string) (current : string) (res : bool * gset string) : Prop :=
  V ⊆ res.2 /\
  (res.1 = true -> rtc (edge graph) current target) /\
  (res.1 = false -> current ∈ res.2 /\ closedNew graph target V res.2).

(** ** System *)

(** [maxConcurrentTasks - runningTasks.size] *)
Definition freeSlots (sys : System) : Z :=
  maxConcurrentTasks sys - Z.of_nat (size (runningTasks sys)).

(** The bookkeeping of the executor agrees with the store: the suspended
    calls are for distinct tasks, [runningTasks] holds exactly their ids,
    each of them is RUNNING in the store, and no other task is. *)
Definition consistent (sys : System) : Prop :=
  store_wf (db sys) /\
  List.NoDup (map id (sleeping sys)) /\
  runningTasks sys = list_to_set (map id (sleeping sys)) /\
  (forall t, In t (sleeping sys) ->
     exists r, selectById (db sys) (id t) = Some r /\ row_status r = RUNNING) /\
  (forall r, In r (db sys) -> row_status r = RUNNING ->
     In (row_id r) (map id (sleeping sys))).

Definition terminal (st : TaskStatus) : Prop := st = COMPLETED \/ st = FAILED.

(** Under [stepApi] a task can have several suspended calls and need not
    be RUNNING while one of them sleeps; but it is never FAILED. *)
Definition sleepersNotFailed (sys : System) : Prop :=
  store_wf (db sys) /\
  (forall t, In t (sleeping sys) ->
     exists r, selectById (db sys) (id t) = Some r /\ row_status r <> FAILED).

(** ** Sample stores and runs *)

Definition sampleInput (taskId : string) (deps : list string) : TaskInput :=
  {| in_id := taskId; in_type := "COMPUTE"; in_duration_ms := 200;
     in_dependencies := Some deps |}.

(** A store with one task that was claimed at time 1000 by a process that
    then died. *)
Definition crashedStore : Store :=
  db (run (main [] 3 (fun _ => 0))
          [EvSubmit (sampleInput "a" []) 900; EvTick (fun _ => 1000)]).

(** Two submissions within the same millisecond, "b" before "a". *)
Definition tieStore : Store :=
  submitTask (submitTask [] (sampleInput "b" []) 5) (sampleInput "a" []) 5.

(** "b" depends on "a"; "a" has run to completion. *)
Definition dependentSystem : System :=
  run (main [] 3 (fun _ => 0))
      [EvSubmit (sampleInput "a" []) 1; EvSubmit (sampleInput "b" ["a"%string]) 2;
       EvTick (fun _ => 3); EvSettle 0 Resolved 4].

Definition completedRowA : Row :=
  {| row_id := "a"; row_type := "COMPUTE"; row_duration_ms := 200;
     row_dependencies := []; row_status := COMPLETED; row_created_at := 1;
     row_started_at := Some 3; row_completed_at := Some 4;
     row_error := None; row_retry_count := Some 0; row_version := 2 |}.

Definition waitingRowB : Row :=
  {| row_id := "b"; row_type := "COMPUTE"; row_duration_ms := 200;
     row_dependencies := ["a"%string]; row_status := WAITING;
     row_created_at := 2; row_started_at := None; row_completed_at := None;
     row_error := None; row_retry_count := Some 0; row_version := 0 |}.

(** A store whose only task names a dependency "n" that is not stored. *)
Definition danglingStore : Store :=
  [ {| row_id := "a"; row_type := "COMPUTE"; row_duration_ms := 200;
       row_dependencies := ["n"%string]; row_status := WAITING;
       row_created_at := 1; row_started_at := None;
       row_completed_at := None; row_error := None;
       row_retry_count := Some 0; row_version := 0 |} ].

Definition laterEvents : list Event :=
  [EvTick (fun _ => 7); EvSettle 0 (Rejected "boom") 9;
   EvRestart (fun _ => 11); EvSettle 0 Resolved 12].

(** ** Rows over time *)

(** The columns no [UPDATE] of the source names. *)
Definition fixedColumns (r : Row) : string * string * Z * list string * Z :=
  (row_id r, row_type r, row_duration_ms r, row_dependencies r,
   row_created_at r).

(** A later state of the same row. *)
Definition evolves (r r' : Row) : Prop :=
  fixedColumns r = fixedColumns r' /\ row_version r <= row_version r'.

(** ** Well-formed dependency graphs *)

(** I2: every dependency of a stored task is stored. *)
Definition depsStored (s : Store) : Prop :=
  forall r d, In r s -> In d (row_dependencies r) -> In d (map row_id s).

(** I3: the dependency graph has no cycle. *)
Definition acyclic (s : Store) : Prop :=
  forall x, ~ tc (dependsOn s) x x.

Definition graphOk (s : Store) : Prop :=
  store_wf s /\ depsStored s /\ acyclic s.

(** A task that is or was executing. *)
Definition started (st : TaskStatus) : Prop :=
  st = RUNNING \/ st = COMPLETED \/ st = FAILED.

(** Every task that is or was executing has all its dependencies
    COMPLETED. *)
Definition startedAfterDeps (s : Store) : Prop :=
  forall r d, In r s -> started (row_status r) ->
    In d (row_dependencies r) -> completedIn s d.

(** What checks 1 to 7 of [validateTaskInput] ask of an input. *)
Definition wellFormedInput (s : Store) (taskInput : TaskInput) : Prop :=
  in_id taskInput <> EmptyString /\
  in_type taskInput <> EmptyString /\
  0 <= in_duration_ms taskInput /\
  getTask s (in_id taskInput) = None /\
  forall d, In d (depsOrEmpty taskInput) ->
    isBlank d = false /\ d <> in_id taskInput /\ In d (map row_id s).

(** The update of a claim made at time [now]. *)
Definition claimUpdates (now : Z) : Updates :=
  {| u_started_at := Some now; u_completed_at := None;
     u_error := None; u_retry_count := None |}.

Definition noRestart (ev : Event) : bool :=
  match ev with
  | EvRestart _ => false
  | _ => true
  end.

(** ** More sample data *)

Definition sampleTask : Task :=
  {| id := "t"; type := "COMPUTE"; duration_ms := 50;
     dependencies := ["a"%string]; status := WAITING; created_at := 7;
     started_at := None; completed_at := None; error := None;
     retry_count := None |}.

Definition sampleEvents : list Event :=
  [EvSubmit (sampleInput "a" []) 1; EvSubmit (sampleInput "b" ["a"%string]) 2;
   EvTick (fun _ => 3); EvSettle 0 Resolved 4].

(** [s'] holds the rows of [s], each possibly in a later state, followed
    by rows inserted since. *)
Definition grows (s s' : Store) : Prop :=
  exists s1 tail, s' = s1 ++ tail /\ Forall2 evolves s s1.

(** The dependency lists of a table, by id. *)
Definition graphOf (s : Store) : list (string * list string) :=
  map (fun r => (row_id r, row_dependencies r)) s.

(** The tasks a scheduler pass claims. *)
Definition claimedBy (sys : System) : list Task :=
  if isRunning sys
  then firstn (Z.to_nat (freeSlots sys)) (getReadyTasks (db sys))
  else [].

(** A later state of a row in which it has not been claimed. *)
Definition unclaimed (r r' : Row) : Prop :=
  row_id r' = row_id r /\
  (row_status r' = RUNNING -> row_status r = RUNNING).

(** The status changes one event can make to a stored task. *)
Definition allowedTransition (a b : TaskStatus) : bool :=
  match a, b with
  | QUEUED, RUNNING | WAITING, RUNNING => true
  | RUNNING, COMPLETED | RUNNING, FAILED | RUNNING, QUEUED => true
  | _, _ => TaskStatus_eqb a b
  end.

(** * Properties *)

(** ** The store *)

Lemma TaskStatus_eqb_eq a b : TaskStatus_eqb a b = true <-> a = b.
Proof. destruct a, b; simpl; split; congruence. Qed.

Lemma TaskStatus_eqb_refl a : TaskStatus_eqb a a = true.
Proof. by destruct a. Qed.

Lemma selectById_Some s taskId r :
  selectById s taskId = Some r -> In r s /\ row_id r = taskId.
Proof.
  unfold selectById. intros H. apply find_some in H as [Hin Heq].
  split; [done | by apply String.eqb_eq].
Qed.

Lemma selectById_None s taskId :
  selectById s taskId = None <-> ~ In taskId (map row_id s).
Proof.
  unfold selectById. induction s as [|r s IH]; simpl; [tauto|].
  destruct (String.eqb_spec (row_id r) taskId) as [->|Hne].
  - split; [discriminate | intros H; exfalso; apply H; by left].
  - rewrite IH. tauto.
Qed.

Lemma selectById_wf s r :
  store_wf s -> In r s -> selectById s (row_id r) = Some r.
Proof.
  unfold store_wf, selectById. induction s as [|r0 s IH]; simpl; [done|].
  intros Hnd [->|Hin].
  - by rewrite String.eqb_refl.
  - apply List.NoDup_cons_iff in Hnd as [Hnotin Hnd].
    destruct (String.eqb_spec (row_id r0) (row_id r)) as [Heq|_].
    + exfalso. apply Hnotin. rewrite Heq. by apply in_map.
    + by apply IH.
Qed.

Lemma updateById_ids taskId f s :
  (forall r, row_id (f r) = row_id r) ->
  map row_id (updateById taskId f s) = map row_id s.
Proof.
  intros Hf. unfold updateById. rewrite map_map. apply map_ext.
  intros r. by destruct (String.eqb _ _).
Qed.

Lemma selectById_updateById taskId f s taskId' :
  (forall r, row_id (f r) = row_id r) ->
  selectById (updateById taskId f s) taskId' =
  if String.eqb taskId taskId'
  then option_map f (selectById s taskId')
  else selectById s taskId'.
Proof.
  intros Hf. unfold selectById, updateById.
  induction s as [|r s IH]; simpl; [by destruct (String.eqb _ _)|].
  destruct (String.eqb_spec (row_id r) taskId) as [Hr|Hr].
  - rewrite Hf, Hr.
    destruct (String.eqb_spec taskId taskId') as [He|He]; [done|].
    apply IH.
  - destruct (String.eqb_spec (row_id r) taskId') as [Hr'|Hr'].
    + destruct (String.eqb_spec taskId taskId') as [He|He]; [congruence|done].
    + apply IH.
Qed.

Lemma applyUpdate_id st u r : row_id (applyUpdate st u r) = row_id r.
Proof. reflexivity. Qed.

Lemma updateTaskStatus_miss s taskId st v u :
  (forall r, In r s -> whereIdVersion taskId v r = false) ->
  updateTaskStatus s taskId st v u = (s, false).
Proof.
  intros H. unfold updateTaskStatus. f_equal.
  - rewrite <- (map_id s) at 2. apply map_ext_in.
    intros r Hin. by rewrite (H r Hin).
  - destruct (existsb _ s) eqn:E; [|done].
    apply existsb_exists in E as (r & Hin & Hr). by rewrite (H r Hin) in Hr.
Qed.

Lemma updateTaskStatus_hit s taskId st v u r :
  store_wf s -> selectById s taskId = Some r -> row_version r = v ->
  updateTaskStatus s taskId st v u
  = (updateById taskId (applyUpdate st u) s, true).
Proof.
  intros Hwf Hsel Hv. apply selectById_Some in Hsel as Hr.
  destruct Hr as [Hin Hid]. unfold updateTaskStatus, updateById. f_equal.
  - apply map_ext_in. intros r' Hin'. unfold whereIdVersion.
    destruct (String.eqb_spec (row_id r') taskId) as [Heq|]; [|done].
    assert (r' = r) as ->.
    { pose proof (selectById_wf s r' Hwf Hin') as H1.
      rewrite Heq, Hsel in H1. congruence. }
    rewrite Hv, Z.eqb_refl. done.
  - apply existsb_exists. exists r. split; [done|].
    unfold whereIdVersion. rewrite Hid, String.eqb_refl, Hv, Z.eqb_refl. done.
Qed.

Lemma updateTaskStatus_stale s taskId st v u :
  store_wf s ->
  (forall r, selectById s taskId = Some r -> row_version r <> v) ->
  updateTaskStatus s taskId st v u = (s, false).
Proof.
  intros Hwf H. apply updateTaskStatus_miss. intros r Hin.
  unfold whereIdVersion.
  destruct (String.eqb_spec (row_id r) taskId) as [Heq|]; [|done].
  simpl. apply Z.eqb_neq. apply H. rewrite <- Heq. by apply selectById_wf.
Qed.

Lemma applyUpdate_written st u r : written st u r (applyUpdate st u r).
Proof.
  unfold written, applyUpdate; simpl.
  destruct (u_started_at u), (u_completed_at u), (u_error u),
    (u_retry_count u); simpl; repeat split.
Qed.

(** C1. [updateTaskStatus] reports [true] exactly when the row stored
    under the id has the expected version.  In that case the row is
    rewritten as [written] describes (version plus one, the new status, the
    supplied optional fields and no others) and every other id keeps its
    row; otherwise the store is unchanged. *)
Theorem updateTaskStatus_version_gate
    (s : Store) (taskId : string) (newStatus : TaskStatus)
    (currentVersion : Z) (updates : Updates) (Hwf : store_wf s) :
  let '(s', claimed) :=
    updateTaskStatus s taskId newStatus currentVersion updates in
  (claimed = true <->
     exists r, selectById s taskId = Some r /\ row_version r = currentVersion) /\
  (claimed = true ->
     (forall r, selectById s taskId = Some r ->
        exists r', selectById s' taskId = Some r' /\
                   written newStatus updates r r') /\
     (forall other, other <> taskId ->
        selectById s' other = selectById s other) /\
     map row_id s' = map row_id s) /\
  (claimed = false -> s' = s).
Proof.
  destruct (selectById s taskId) as [r|] eqn:Hsel.
  - destruct (Z.eq_dec (row_version r) currentVersion) as [Hv|Hv].
    + rewrite (updateTaskStatus_hit _ _ _ _ _ r Hwf Hsel Hv).
      split; [split; eauto|]. split; [|discriminate].
      intros _. split; [|split].
      * intros r0 [= <-]. exists (applyUpdate newStatus updates r).
        split; [|apply applyUpdate_written].
        rewrite selectById_updateById by apply applyUpdate_id.
        by rewrite String.eqb_refl, Hsel.
      * intros other Hne.
        rewrite selectById_updateById by apply applyUpdate_id.
        destruct (String.eqb_spec taskId other); congruence.
      * apply updateById_ids, applyUpdate_id.
    + rewrite updateTaskStatus_stale; [|done|intros ? ?; congruence].
      split; [|split; [discriminate|done]].
      split; [discriminate|]. intros (r0 & [= <-] & Hr0). done.
  - rewrite updateTaskStatus_stale; [|done|intros ? ?; congruence].
    split; [|split; [discriminate|done]].
    split; [discriminate|]. intros (r0 & [=] & _).
Qed.

(** C10. The mutation primitive looks at the id and the version only:
    whatever status the stored row has, COMPLETED and FAILED included, and
    whatever status is asked for, a call with the stored version is applied
    and the row then carries the requested status. *)
Theorem updateTaskStatus_ignores_status
    (s : Store) (taskId : string) (r : Row) (current newStatus : TaskStatus)
    (updates : Updates)
    (Hwf : store_wf s)
    (Hrow : selectById s taskId = Some r)
    (Hcur : row_status r = current) :
  exists s' r',
    updateTaskStatus s taskId newStatus (row_version r) updates = (s', true) /\
    selectById s' taskId = Some r' /\
    row_status r' = newStatus /\
    row_version r' = row_version r + 1.
Proof.
  exists (updateById taskId (applyUpdate newStatus updates) s),
         (applyUpdate newStatus updates r).
  split; [by apply (updateTaskStatus_hit _ _ _ _ _ r)|].
  split; [|done].
  rewrite selectById_updateById by apply applyUpdate_id.
  by rewrite String.eqb_refl, Hrow.
Qed.

(** ** The stable sort *)

Section StableSortFacts.
Context {A : Type} (key : A -> Z).

Lemma insertByKey_perm x l : Permutation (insertByKey key x l) (x :: l).
Proof.
  induction l as [|y l IH]; simpl; [done|].
  destruct (key x <=? key y); [done|].
  rewrite IH. apply perm_swap.
Qed.

Lemma sortByKey_perm l : Permutation (sortByKey key l) l.
Proof.
  induction l as [|x l IH]; simpl; [done|].
  rewrite insertByKey_perm. by constructor.
Qed.

Lemma sortByKey_In x l : In x (sortByKey key l) <-> In x l.
Proof.
  split; apply Permutation_in;
    [apply sortByKey_perm | symmetry; apply sortByKey_perm].
Qed.

Lemma insertByKey_sorted x l :
  StronglySorted (keyLe key) l ->
  StronglySorted (keyLe key) (insertByKey key x l).
Proof.
  induction 1 as [|y l Hs IH Hall]; simpl.
  - repeat constructor.
  - destruct (Z.leb_spec (key x) (key y)) as [Hle|Hgt].
    + constructor; [by constructor|]. constructor; [done|].
      eapply Forall_impl; [exact Hall|]. unfold keyLe. simpl. lia.
    + constructor; [done|].
      eapply Permutation_Forall; [symmetry; apply insertByKey_perm|].
      constructor; [unfold keyLe; lia | done].
Qed.

Lemma sortByKey_sorted l : StronglySorted (keyLe key) (sortByKey key l).
Proof.
  induction l; simpl; [constructor | by apply insertByKey_sorted].
Qed.

(** Stability: among the elements that satisfy any predicate [p] on the
    key, the order of the input is kept. *)
Lemma insertByKey_filter_eq k x l :
  StronglySorted (keyLe key) l ->
  List.filter (fun a => key a =? k) (insertByKey key x l)
  = List.filter (fun a => key a =? k) (x :: l).
Proof.
  induction 1 as [|y l Hs IH Hall]; [done|].
  simpl insertByKey.
  destruct (Z.leb_spec (key x) (key y)) as [Hle|Hgt]; [done|].
  simpl in IH |- *. rewrite IH.
  destruct (Z.eqb_spec (key y) k) as [Hy|Hy];
    destruct (Z.eqb_spec (key x) k) as [Hx|Hx]; try done.
  lia.
Qed.

Lemma sortByKey_stable k l :
  List.filter (fun a => key a =? k) (sortByKey key l)
  = List.filter (fun a => key a =? k) l.
Proof.
  induction l as [|x l IH]; [done|]. simpl sortByKey.
  rewrite insertByKey_filter_eq by apply sortByKey_sorted.
  simpl. by rewrite IH.
Qed.

Lemma insertByKey_sorted_id x l :
  Forall ((keyLe key) x) l -> insertByKey key x l = x :: l.
Proof.
  destruct 1 as [|y l Hy _]; [done|]. simpl.
  unfold keyLe in Hy. destruct (Z.leb_spec (key x) (key y)); [done|lia].
Qed.

(** Sorting a sorted list changes nothing. *)
Lemma sortByKey_sorted_id l :
  StronglySorted (keyLe key) l -> sortByKey key l = l.
Proof.
  induction 1 as [|x l Hs IH Hall]; [done|]. simpl.
  rewrite IH. by apply insertByKey_sorted_id.
Qed.
End StableSortFacts.

(** ** Listing and readiness *)

Lemma getAllTasks_In t s :
  In t (getAllTasks s) <-> exists r, In r s /\ t = rowToTask r.
Proof.
  unfold getAllTasks, orderByCreatedAt. rewrite in_map_iff.
  split; intros (r & H1 & H2).
  - exists r. by rewrite sortByKey_In in H2.
  - exists r. by rewrite sortByKey_In.
Qed.

Lemma completedIds_spec s d :
  d ∈ completedIds (getAllTasks s) <->
  exists r, In r s /\ row_id r = d /\ row_status r = COMPLETED.
Proof.
  unfold completedIds. rewrite elem_of_list_to_set, list_elem_of_In, in_map_iff.
  split.
  - intros (t & Hid & Hin). apply filter_In in Hin as [Hin Hc].
    apply getAllTasks_In in Hin as (r & Hr & ->).
    exists r. split; [done|]. split; [done|]. by apply TaskStatus_eqb_eq.
  - intros (r & Hr & Hid & Hc). exists (rowToTask r). split; [done|].
    apply filter_In. split; [apply getAllTasks_In; eauto|].
    unfold isCompleted. simpl. rewrite Hc. done.
Qed.

Lemma completedIds_getTask s d :
  store_wf s ->
  d ∈ completedIds (getAllTasks s) <->
  exists t, getTask s d = Some t /\ status t = COMPLETED.
Proof.
  intros Hwf. rewrite completedIds_spec. unfold getTask. split.
  - intros (r & Hr & <- & Hc). exists (rowToTask r).
    by rewrite (selectById_wf _ _ Hwf Hr).
  - intros (t & Ht & Hc). destruct (selectById s d) as [r|] eqn:E; [|done].
    apply selectById_Some in E as [Hin Hid]. simpl in Ht.
    injection Ht as <-. by exists r.
Qed.

Lemma allDepsIn_spec done deps :
  allDepsIn done deps = true <-> forall d, In d deps -> d ∈ done.
Proof.
  unfold allDepsIn. rewrite forallb_forall. split; intros H d Hd.
  - specialize (H d Hd). by apply bool_decide_eq_true in H.
  - apply bool_decide_eq_true. by apply H.
Qed.

Lemma allDepsIn_false done deps :
  allDepsIn done deps = false -> exists d, In d deps /\ d ∉ done.
Proof.
  unfold allDepsIn. induction deps as [|d deps IH]; simpl; [done|].
  destruct (decide (d ∈ done)) as [Hd|Hd].
  - rewrite bool_decide_eq_true_2 by done. simpl. intros H.
    destruct (IH H) as (d' & Hin & Hd'). exists d'. split; [by right|done].
  - intros _. exists d. split; [by left|done].
Qed.

(** ** Materialization *)

(** C5. [createTask] copies id, type, duration and the dependency list
    (the empty list when the input has none) from the input.  The status
    is QUEUED when the list is empty or every listed id is stored with
    status COMPLETED, and WAITING otherwise. *)
Theorem createTask_initial_status
    (s : Store) (taskInput : TaskInput) (now : Z) (Hwf : store_wf s) :
  let task := createTask s taskInput now in
  let deps := default [] (in_dependencies taskInput) in
  let satisfied :=
    deps = [] \/
    forall d, In d deps ->
      exists t, getTask s d = Some t /\ status t = COMPLETED in
  id task = in_id taskInput /\
  type task = in_type taskInput /\
  duration_ms task = in_duration_ms taskInput /\
  dependencies task = deps /\
  (satisfied -> status task = QUEUED) /\
  (~ satisfied -> status task = WAITING).
Proof.
  simpl. unfold depsOrEmpty.
  set (deps := default [] (in_dependencies taskInput)).
  assert (Hd : match in_dependencies taskInput with
               | Some d => d | None => [] end = deps)
    by (subst deps; by destruct (in_dependencies taskInput)).
  rewrite !Hd. repeat (split; [done|]).
  destruct (allDepsIn _ deps) eqn:Hall.
  - split; [by destruct (length deps =? 0)%nat | intros Hn].
    exfalso. apply Hn. right. intros d Hin.
    apply completedIds_getTask; [done|].
    by apply (proj1 (allDepsIn_spec _ _) Hall).
  - destruct deps as [|d0 deps']; simpl; [by split; [|intros []; left]|].
    split; [intros [Habs|Hsat]; [done|] | done].
    exfalso. apply not_true_iff_false in Hall. apply Hall.
    apply allDepsIn_spec. intros d Hin.
    apply completedIds_getTask; [done|]. by apply Hsat.
Qed.

(** ** Cycle detection *)

Section DepthFirstSearch.
Variable graph : gmap string (list string).
Variable target : string.

Lemma closedNew_trans V V1 V2 :
  V ⊆ V1 -> V1 ⊆ V2 ->
  closedNew graph target V V1 -> closedNew graph target V1 V2 ->
  closedNew graph target V V2.
Proof.
  intros H01 H12 Ha Hb x Hx2 Hx0.
  destruct (decide (x ∈ V1)) as [Hx1|Hx1].
  - destruct (Ha x Hx1 Hx0) as [Hne Hsucc]. split; [done|].
    intros y Hy. apply H12. by apply Hsucc.
  - by apply Hb.
Qed.

Lemma anyDep_post rec deps :
  (forall d V r, rec d V = Some r -> searchPost graph target V d r) ->
  forall V b V',
    anyDep rec deps V = Some (b, V') ->
    V ⊆ V' /\
    (b = true -> exists d, In d deps /\ rtc (edge graph) d target) /\
    (b = false ->
       (forall d, In d deps -> d ∈ V') /\ closedNew graph target V V').
Proof.
  intros Hrec. induction deps as [|d rest IH]; intros V b V' H; simpl in H.
  - injection H as <- <-. split; [done|]. split; [done|].
    intros _. split; [intros ? []|]. intros x Hx Hnx. done.
  - destruct (rec d V) as [[[] V1]|] eqn:Hd; [| |done].
    + injection H as <- <-.
      destruct (Hrec _ _ _ Hd) as (Hsub & Ht & _). simpl in *.
      split; [done|]. split; [|done].
      intros _. exists d. split; [by left | by apply Ht].
    + destruct (Hrec _ _ _ Hd) as (Hsub & _ & Hf). simpl in *.
      destruct (Hf eq_refl) as [Hd1 Hcl1].
      destruct (IH _ _ _ H) as (Hsub' & Ht' & Hf').
      split; [set_solver|]. split.
      * intros Hb. destruct (Ht' Hb) as (d' & Hin & Hr).
        exists d'. split; [by right | done].
      * intros Hb. destruct (Hf' Hb) as [Hall Hcl2]. split.
        -- intros d' [<-|Hin]; [by apply Hsub' | by apply Hall].
        -- by apply (closedNew_trans V V1 V').
Qed.

Lemma hasCycle_post fuel :
  forall current V r,
    hasCycle fuel current target graph V = Some r ->
    searchPost graph target V current r.
Proof.
  induction fuel as [|fuel IH]; intros current V r H; simpl in H; [done|].
  destruct (String.eqb_spec current target) as [->|Hne].
  { injection H as <-. split; [done|]. split; [|done]. intros _. done. }
  destruct (decide (current ∈ V)) as [Hin|Hnin].
  { rewrite bool_decide_eq_true_2 in H by done. injection H as <-.
    split; [done|]. split; [done|]. intros _. split; [done|].
    intros x Hx Hnx. done. }
  rewrite bool_decide_eq_false_2 in H by done.
  destruct (graph !! current) as [deps|] eqn:Hg.
  - destruct r as [b V'].
    destruct (anyDep_post _ deps (fun d V0 r0 => IH d V0 r0) _ _ _ H)
      as (Hsub & Ht & Hf).
    split; [simpl; set_solver|]. split; simpl.
    + intros Hb. destruct (Ht Hb) as (d & Hd & Hr).
      eapply rtc_l; [|exact Hr]. by exists deps.
    + intros Hb. destruct (Hf Hb) as [Hall Hcl].
      split; [set_solver|]. intros x Hx Hnx.
      destruct (decide (x = current)) as [->|Hxc].
      * split; [done|]. intros y (deps' & Hg' & Hy).
        rewrite Hg in Hg'. injection Hg' as <-. by apply Hall.
      * apply Hcl; [done|]. set_solver.
  - injection H as <-. split; [simpl; set_solver|]. split; [done|].
    intros _. split; [simpl; set_solver|]. simpl. intros x Hx Hnx.
    assert (x = current) as -> by set_solver.
    split; [done|]. intros y (deps' & Hg' & _). congruence.
Qed.

(** The recursion is bounded by the graph keys still unvisited. *)
Lemma anyDep_terminates rec fuel deps :
  (forall d V, size (dom graph ∖ V) < fuel -> is_Some (rec d V))%nat ->
  (forall d V r, rec d V = Some r -> V ⊆ r.2) ->
  forall V, (size (dom graph ∖ V) < fuel)%nat ->
    is_Some (anyDep rec deps V).
Proof.
  intros Hsome Hmono. induction deps as [|d rest IH]; intros V HV; simpl.
  - by eexists.
  - destruct (Hsome d V HV) as [[b V1] Hd]. rewrite Hd.
    destruct b; [by eexists|]. apply IH.
    pose proof (Hmono _ _ _ Hd) as Hsub. simpl in Hsub.
    eapply Nat.le_lt_trans; [|exact HV].
    apply subseteq_size. set_solver.
Qed.

Lemma hasCycle_terminates fuel :
  forall current V,
    (size (dom graph ∖ V) < fuel)%nat ->
    is_Some (hasCycle fuel current target graph V).
Proof.
  induction fuel as [|fuel IH]; intros current V HV; [lia|]. simpl.
  destruct (String.eqb current target); [by eexists|].
  destruct (bool_decide (current ∈ V)) eqn:Hvis; [by eexists|].
  apply bool_decide_eq_false in Hvis.
  destruct (graph !! current) as [deps|] eqn:Hg; [|by eexists].
  apply (anyDep_terminates _ fuel).
  - intros d V0 H0. by apply IH.
  - intros d V0 r Hr. by destruct (hasCycle_post _ _ _ _ Hr).
  - assert (dom graph ∖ ({[current]} ∪ V) ⊂ dom graph ∖ V) as Hlt.
    { apply elem_of_dom_2 in Hg. set_solver. }
    apply subset_size in Hlt. lia.
Qed.

(** A search that starts from an empty visited set with enough fuel
    decides reachability of the target. *)
Lemma hasCycle_fresh_spec fuel current :
  (size graph < fuel)%nat ->
  exists b V',
    hasCycle fuel current target graph ∅ = Some (b, V') /\
    (b = true <-> rtc (edge graph) current target).
Proof.
  intros Hfuel.
  destruct (hasCycle_terminates fuel current ∅) as [[b V'] Hr].
  { rewrite difference_empty_L, size_dom. done. }
  exists b, V'. split; [done|].
  destruct (hasCycle_post _ _ _ _ Hr) as (_ & Ht & Hf). simpl in *.
  split; [done|]. intros Hreach.
  destruct b; [done|]. exfalso.
  destruct (Hf eq_refl) as [Hcur Hcl].
  assert (Hclosed : forall x y, rtc (edge graph) x y -> x ∈ V' -> y ∈ V').
  { induction 1 as [|x y z Hxy _ IHr]; [done|]. intros Hx.
    apply IHr. destruct (Hcl x Hx) as [_ Hsucc]; [set_solver|].
    by apply Hsucc. }
  destruct (Hcl target (Hclosed _ _ Hreach Hcur)); [set_solver|done].
Qed.
End DepthFirstSearch.

Lemma detectCycleLoop_spec fuel newTaskId graph deps :
  (size graph < fuel)%nat ->
  valid (detectCycleLoop fuel newTaskId graph deps) = false <->
  exists d, In d deps /\ rtc (edge graph) d newTaskId.
Proof.
  intros Hfuel. induction deps as [|d rest IH]; simpl.
  - split; [done | by intros (? & [] & _)].
  - destruct (hasCycle_fresh_spec graph newTaskId fuel d Hfuel)
      as (b & V' & -> & Hb).
    destruct b.
    + split; [|done]. intros _. exists d. split; [by left | by apply Hb].
    + rewrite IH. split; intros (d' & Hin & Hr).
      * exists d'. split; [by right | done].
      * destruct Hin as [<-|Hin]; [|by exists d'].
        apply Hb in Hr. done.
Qed.

Lemma buildGraph_lookup tasks :
  forall (g0 : gmap string (list string)) x,
    List.NoDup (map id tasks) ->
    fold_left (fun graph task => <[id task := dependencies task]> graph)
      tasks g0 !! x
    = match List.find (fun t => String.eqb (id t) x) tasks with
      | Some t => Some (dependencies t)
      | None => g0 !! x
      end.
Proof.
  induction tasks as [|t tasks IH]; intros g0 x Hnd; simpl; [done|].
  apply List.NoDup_cons_iff in Hnd as [Hnotin Hnd].
  rewrite IH by done.
  destruct (String.eqb_spec (id t) x) as [<-|Hne].
  - destruct (List.find _ tasks) as [t'|] eqn:Hf.
    + apply find_some in Hf as [Hin Heq]. apply String.eqb_eq in Heq.
      exfalso. apply Hnotin. rewrite <- Heq. by apply in_map.
    + by rewrite lookup_insert_eq.
  - destruct (List.find _ tasks); [done|]. by rewrite lookup_insert_ne.
Qed.

Lemma getAllTasks_ids_NoDup s :
  store_wf s -> List.NoDup (map id (getAllTasks s)).
Proof.
  unfold store_wf, getAllTasks, orderByCreatedAt. intros Hwf.
  rewrite map_map. simpl.
  eapply Permutation_NoDup; [|exact Hwf].
  apply Permutation_map. symmetry. apply sortByKey_perm.
Qed.

(** Under the primary-key constraint the map built by [detectCycle] holds
    exactly the dependency edges of the store. *)
Lemma edge_buildGraph s x y :
  store_wf s ->
  edge (buildGraph (getAllTasks s)) x y <-> dependsOn s x y.
Proof.
  intros Hwf. unfold edge, dependsOn, buildGraph.
  pose proof (getAllTasks_ids_NoDup s Hwf) as Hnd.
  split.
  - intros (deps & Hg & Hy). rewrite buildGraph_lookup in Hg by done.
    destruct (List.find _ _) as [t|] eqn:Hf; [|by rewrite lookup_empty in Hg].
    apply find_some in Hf as [Hin Heq]. apply String.eqb_eq in Heq.
    apply getAllTasks_In in Hin as (r & Hr & ->).
    injection Hg as <-. by exists r.
  - intros (r & Hr & Hid & Hy). exists (row_dependencies r).
    split; [|done]. rewrite buildGraph_lookup by done.
    destruct (List.find _ _) as [t|] eqn:Hf.
    + apply find_some in Hf as [Hin Heq]. apply String.eqb_eq in Heq.
      apply getAllTasks_In in Hin as (r' & Hr' & ->). simpl in Heq.
      assert (r' = r) as ->; [|done].
      pose proof (selectById_wf _ _ Hwf Hr) as H1.
      pose proof (selectById_wf _ _ Hwf Hr') as H2. congruence.
    + exfalso. eapply find_none in Hf; [|apply getAllTasks_In; eauto].
      simpl in Hf. rewrite Hid, String.eqb_refl in Hf. done.
Qed.

(** Paths to a node [n] do not depend on the edges that leave [n]. *)
Section EdgesOutOfTarget.
Variables (R R' : relation string) (n : string).
Hypothesis agree : forall x y, x <> n -> R x y -> R' x y.

Lemma rtc_to_agree x : rtc R x n -> rtc R' x n.
Proof.
  enough (forall m, rtc R x m -> m = n -> rtc R' x m) by eauto.
  induction 1 as [|x y z Hxy Hyz IH]; intros Hm; [done|].
  destruct (decide (x = z)) as [->|Hx]; [done|].
  eapply rtc_l; [|by apply IH]. apply agree; congruence.
Qed.

(** A path either stays within [R'] or reaches [n] first. *)
Lemma tc_split x y :
  tc R x y -> tc R' x y \/ (rtc R' x n /\ tc R n y).
Proof.
  induction 1 as [x y Hxy|x z y Hxz Hzy IH].
  - destruct (decide (x = n)) as [->|Hx].
    + right. split; [done | by apply tc_once].
    + left. apply tc_once. by apply agree.
  - destruct (decide (x = n)) as [->|Hx].
    + right. split; [done | by eapply tc_l].
    + destruct IH as [IH|[IH1 IH2]].
      * left. eapply tc_l; [by apply agree | done].
      * right. split; [|done]. eapply rtc_l; [by apply agree | done].
Qed.
End EdgesOutOfTarget.

Lemma getTask_None s taskId :
  getTask s taskId = None -> forall r, In r s -> row_id r <> taskId.
Proof.
  unfold getTask. intros H r Hin Heq.
  destruct (selectById s taskId) eqn:E; [done|].
  apply selectById_None in E. apply E. rewrite <- Heq. by apply in_map.
Qed.

Lemma edge_detectCycle_graph s newId newDeps x y :
  store_wf s -> getTask s newId = None ->
  edge (<[newId := newDeps]> (buildGraph (getAllTasks s))) x y
  <-> dependsOnWith s newId newDeps x y.
Proof.
  intros Hwf Hfresh. unfold dependsOnWith.
  destruct (decide (x = newId)) as [->|Hx].
  - unfold edge. rewrite lookup_insert_eq. split.
    + intros (deps & [= <-] & Hy). by right.
    + intros [(r & Hr & Hid & _)|[_ Hy]].
      * by apply (getTask_None _ _ Hfresh) in Hr.
      * by exists newDeps.
  - rewrite <- edge_buildGraph by done. unfold edge.
    rewrite lookup_insert_ne by done. split; [by left|].
    intros [H|[? _]]; done.
Qed.

(** C6. For an input that passes the checks that precede the cycle check
    (non-empty id and type, non-negative duration, an id not yet stored,
    well-formed dependencies that are all stored), over a store whose
    dependency graph is acyclic, [validateTaskInput] rejects exactly when
    the graph extended by the edges from the new id to its dependencies has
    a cycle, and exactly when the new id can be reached from one of the
    listed dependencies along the edges of the stored graph. *)
Theorem validateTaskInput_rejects_iff_cycle
    (s : Store) (taskInput : TaskInput)
    (Hwf : store_wf s)
    (Hacyclic : forall x, ~ tc (dependsOn s) x x)
    (Hid : in_id taskInput <> EmptyString)
    (Htype : in_type taskInput <> EmptyString)
    (Hduration : 0 <= in_duration_ms taskInput)
    (Hfresh : getTask s (in_id taskInput) = None)
    (Hdeps : checkDependencies s (in_id taskInput)
               (default [] (in_dependencies taskInput)) = None) :
  let newId := in_id taskInput in
  let newDeps := default [] (in_dependencies taskInput) in
  (valid (validateTaskInput s taskInput) = false <->
     exists x, tc (dependsOnWith s newId newDeps) x x) /\
  (valid (validateTaskInput s taskInput) = false <->
     exists d, In d newDeps /\ rtc (dependsOn s) d newId).
Proof.
  intros newId newDeps.
  set (g := <[newId := newDeps]> (buildGraph (getAllTasks s))).
  assert (Hedge : forall x y, edge g x y <-> dependsOnWith s newId newDeps x y)
    by (intros; by apply edge_detectCycle_graph).
  assert (Hoff : forall x y, x <> newId ->
                   dependsOnWith s newId newDeps x y -> dependsOn s x y).
  { intros x y Hx [H|[? _]]; done. }
  assert (Hnew : forall d, dependsOnWith s newId newDeps newId d -> In d newDeps).
  { intros d [(r & Hr & Hr' & _)|[_ H]]; [|done].
    by apply (getTask_None _ _ Hfresh) in Hr. }
  (* what the code computes *)
  assert (Hcode : valid (validateTaskInput s taskInput) = false <->
                  exists d, In d newDeps /\ rtc (edge g) d newId).
  { unfold validateTaskInput.
    apply String.eqb_neq in Hid, Htype. rewrite Hid, Htype.
    apply Z.ltb_ge in Hduration. rewrite Hduration, Hfresh.
    assert (depsOrEmpty taskInput = newDeps) as ->
      by (unfold depsOrEmpty, newDeps; by destruct (in_dependencies _)).
    replace (checkDependencies s (in_id taskInput) newDeps)
      with (@None string) by (symmetry; exact Hdeps).
    rewrite <- (detectCycleLoop_spec (S (size g))) by lia.
    unfold detectCycle.
    change (<[in_id taskInput := newDeps]> (buildGraph (getAllTasks s)))
      with g.
    change (in_id taskInput) with newId.
    destruct (valid (detectCycleLoop _ _ _ _)) eqn:E; simpl; [done|].
    by rewrite E. }
  (* reachability in the stored graph *)
  assert (Hreach : (exists d, In d newDeps /\ rtc (edge g) d newId) <->
                   (exists d, In d newDeps /\ rtc (dependsOn s) d newId)).
  { split; intros (d & Hd & Hr); exists d; (split; [done|]).
    - eapply rtc_to_agree; [|exact Hr].
      intros x y Hx Hxy. apply Hoff; [done|]. by apply Hedge.
    - eapply rtc_to_agree; [|exact Hr].
      intros x y Hx Hxy. apply Hedge. by left. }
  split; [|by rewrite Hcode].
  rewrite Hcode, Hreach. split.
  - intros (d & Hd & Hr). exists newId.
    eapply tc_rtc_r; [apply tc_once; by right|].
    eapply rtc_subrel; [|exact Hr]. intros x y Hxy. by left.
  - intros (x & Hcyc).
    destruct (tc_split _ (dependsOn s) newId Hoff _ _ Hcyc)
      as [Hold|[Hpre Hpost]]; [by apply Hacyclic in Hold|].
    assert (exists d, In d newDeps /\ rtc (dependsOnWith s newId newDeps) d x)
      as (d & Hd & Hdx).
    { inversion Hpost as [? ? Hstep|? d ? Hstep Hrest]; subst.
      - exists x. split; [by apply Hnew | done].
      - exists d. split; [by apply Hnew | by apply tc_rtc]. }
    exists d. split; [done|].
    eapply rtc_to_agree; [exact Hoff|].
    etrans; [exact Hdx|].
    eapply rtc_subrel; [|exact Hpre]. intros a b Hab. by left.
Qed.

(** ** Read the version, then write *)

(** Recovery, the claim and the terminal write all read the version of a
    row and pass it straight back to [updateTaskStatus].  Nothing runs in
    between, so on a keyed table the write always applies. *)
Lemma store_wf_updateById taskId f s :
  (forall r, row_id (f r) = row_id r) ->
  store_wf s -> store_wf (updateById taskId f s).
Proof. intros Hf Hwf. unfold store_wf. by rewrite updateById_ids. Qed.

Lemma updateById_absent taskId f s :
  selectById s taskId = None -> updateById taskId f s = s.
Proof.
  intros Hnone. unfold updateById. rewrite <- (map_id s) at 2.
  apply map_ext_in. intros r Hin.
  destruct (String.eqb_spec (row_id r) taskId) as [Heq|]; [|done].
  apply selectById_None in Hnone. exfalso. apply Hnone.
  rewrite <- Heq. by apply in_map.
Qed.

Lemma versioned_write s taskId st u :
  store_wf s ->
  match getTaskWithVersion s taskId with
  | Some (_, version) => updateTaskStatus s taskId st version u
  | None => (s, false)
  end
  = (updateById taskId (applyUpdate st u) s,
     bool_decide (is_Some (selectById s taskId))).
Proof.
  intros Hwf. unfold getTaskWithVersion.
  destruct (selectById s taskId) as [r|] eqn:Hsel; simpl.
  - by rewrite (updateTaskStatus_hit _ _ _ _ _ r Hwf Hsel eq_refl).
  - by rewrite updateById_absent.
Qed.

(** ** Recovery *)

Lemma recoverOne_updateById s task :
  store_wf s -> recoverOne s task = updateById (id task) requeue s.
Proof.
  intros Hwf. unfold recoverOne.
  pose proof (versioned_write s (id task) QUEUED recoveryUpdates Hwf) as H.
  destruct (getTaskWithVersion s (id task)) as [[t v]|];
    exact (f_equal fst H).
Qed.

Lemma fold_updateById f tasks :
  (forall r, row_id (f r) = row_id r) ->
  List.NoDup (map id tasks) ->
  forall s,
    fold_left (fun acc task => updateById (id task) f acc) tasks s
    = map (fun r => if inIds (map id tasks) r then f r else r) s.
Proof.
  intros Hf. induction tasks as [|t tasks IH]; intros Hnd s; simpl.
  - symmetry. apply map_id.
  - apply List.NoDup_cons_iff in Hnd as [Hnotin Hnd].
    rewrite IH by done. unfold updateById. rewrite map_map.
    apply map_ext. intros r. unfold inIds. simpl.
    destruct (String.eqb_spec (row_id r) (id t)) as [Heq|Hne]; simpl; [|done].
    rewrite Hf.
    destruct (existsb _ _) eqn:E; [|done].
    apply existsb_exists in E as (x & Hx & Hrx).
    apply String.eqb_eq in Hrx. exfalso. apply Hnotin.
    by rewrite <- Heq, Hrx.
Qed.

Lemma fold_recoverOne tasks :
  List.NoDup (map id tasks) ->
  forall s, store_wf s ->
    fold_left recoverOne tasks s
    = map (fun r => if inIds (map id tasks) r then requeue r else r) s.
Proof.
  intros Hnd s Hwf. rewrite <- fold_updateById by done.
  clear Hnd. revert s Hwf.
  induction tasks as [|t tasks IH]; intros s Hwf; simpl; [done|].
  rewrite recoverOne_updateById by done.
  apply IH. by apply store_wf_updateById.
Qed.

Lemma getTasksByStatus_In s st t :
  In t (getTasksByStatus s st) <->
  exists r, In r s /\ row_status r = st /\ t = rowToTask r.
Proof.
  unfold getTasksByStatus, orderByCreatedAt. rewrite in_map_iff.
  split.
  - intros (r & <- & Hin). apply sortByKey_In, filter_In in Hin as [Hin Hst].
    exists r. by rewrite TaskStatus_eqb_eq in Hst.
  - intros (r & Hin & Hst & ->). exists r. split; [done|].
    apply sortByKey_In, filter_In. split; [done|].
    by apply TaskStatus_eqb_eq.
Qed.

Lemma getTasksByStatus_NoDup s st :
  store_wf s -> List.NoDup (map id (getTasksByStatus s st)).
Proof.
  unfold store_wf, getTasksByStatus, orderByCreatedAt. intros Hwf.
  rewrite map_map. simpl.
  eapply Permutation_NoDup;
    [apply Permutation_map; symmetry; apply sortByKey_perm|].
  induction s as [|r s IH]; simpl in *; [constructor|].
  apply List.NoDup_cons_iff in Hwf as [Hnotin Hwf].
  destruct (TaskStatus_eqb _ _); [|by apply IH].
  simpl. constructor; [|by apply IH].
  intros Hin. apply Hnotin. apply in_map_iff in Hin as (r' & Heq & Hr').
  apply filter_In in Hr' as [Hr' _]. rewrite <- Heq. by apply in_map.
Qed.

(** Recovery in closed form: every RUNNING row is requeued, every other
    row is left alone. *)
Lemma recoverOrphanedTasks_map s :
  store_wf s ->
  recoverOrphanedTasks s
  = map (fun r => if TaskStatus_eqb (row_status r) RUNNING
                  then requeue r else r) s.
Proof.
  intros Hwf. unfold recoverOrphanedTasks, getOrphanedTasks.
  assert (Hfold : fold_left recoverOne (getTasksByStatus s RUNNING) s
                  = map (fun r => if TaskStatus_eqb (row_status r) RUNNING
                                  then requeue r else r) s).
  { rewrite fold_recoverOne by (done || by apply getTasksByStatus_NoDup).
    apply map_ext_in. intros r Hin. unfold inIds.
    destruct (TaskStatus_eqb (row_status r) RUNNING) eqn:Hst.
    - apply TaskStatus_eqb_eq in Hst.
      replace (existsb _ _) with true; [done|]. symmetry.
      apply existsb_exists. exists (row_id r).
      split; [|apply String.eqb_refl].
      apply in_map_iff. exists (rowToTask r). split; [done|].
      apply getTasksByStatus_In. by exists r.
    - destruct (existsb _ _) eqn:E; [|done].
      apply existsb_exists in E as (x & Hx & Hrx).
      apply String.eqb_eq in Hrx. subst x.
      apply in_map_iff in Hx as (t & Hid & Ht).
      apply getTasksByStatus_In in Ht as (r' & Hr' & Hst' & ->).
      simpl in Hid.
      assert (r' = r) as ->.
      { pose proof (selectById_wf _ _ Hwf Hin) as H1.
        pose proof (selectById_wf _ _ Hwf Hr') as H2. congruence. }
      rewrite Hst', TaskStatus_eqb_refl in Hst. done. }
  destruct (0 <? length _)%nat eqn:Hlen; [done|].
  rewrite <- Hfold. apply Nat.ltb_ge in Hlen.
  destruct (getTasksByStatus s RUNNING); [done | simpl in Hlen; lia].
Qed.

Lemma store_wf_recover s : store_wf s -> store_wf (recoverOrphanedTasks s).
Proof.
  intros Hwf. rewrite recoverOrphanedTasks_map by done.
  unfold store_wf. rewrite map_map.
  erewrite map_ext; [exact Hwf|].
  intros r. by destruct (TaskStatus_eqb _ _).
Qed.

(** C9. Recovery is idempotent: a second run right after the first finds
    no RUNNING task and returns the store it was given. *)
Theorem recoverOrphanedTasks_idempotent (s : Store) (Hwf : store_wf s) :
  getOrphanedTasks (recoverOrphanedTasks s) = [] /\
  recoverOrphanedTasks (recoverOrphanedTasks s) = recoverOrphanedTasks s.
Proof.
  assert (Hnone : getOrphanedTasks (recoverOrphanedTasks s) = []).
  { destruct (getOrphanedTasks _) as [|t l] eqn:E; [done|]. exfalso.
    assert (In t (getOrphanedTasks (recoverOrphanedTasks s))) as Hin
      by (rewrite E; by left).
    apply getTasksByStatus_In in Hin as (r' & Hr' & Hst & _).
    rewrite recoverOrphanedTasks_map in Hr' by done.
    apply in_map_iff in Hr' as (r & <- & _).
    destruct (TaskStatus_eqb (row_status r) RUNNING) eqn:Hr; simpl in Hst.
    - done.
    - rewrite Hst in Hr. done. }
  split; [done|].
  unfold recoverOrphanedTasks at 1. by rewrite Hnone.
Qed.

(** ** The key constraint, checked by computation *)

Lemma store_wf_check s :
  forallb (fun r => Nat.eqb (count_occ string_dec (map row_id s) (row_id r)) 1)
          s = true ->
  store_wf s.
Proof.
  intros H. apply (NoDup_count_occ string_dec). intros x.
  destruct (in_dec string_dec x (map row_id s)) as [Hin|Hnin].
  - apply in_map_iff in Hin as (r & <- & Hr).
    rewrite forallb_forall in H. specialize (H r Hr).
    apply Nat.eqb_eq in H. lia.
  - apply (count_occ_not_In string_dec) in Hnin. lia.
Qed.

(** ** Recovery and [started_at] *)

(** C4. Recovery turns the RUNNING task of [crashedStore] into a QUEUED
    task with the interruption message, but its [started_at] is still the
    time of the claim: the key [started_at: undefined] of the update is
    skipped by [updateTaskStatus]. *)
Theorem recovery_keeps_started_at :
  option_map (fun t => (status t, started_at t, error t))
             (getTask crashedStore "a")
  = Some (RUNNING, Some 1000, None) /\
  option_map (fun t => (status t, started_at t, error t))
             (getTask (recoverOrphanedTasks crashedStore) "a")
  = Some (QUEUED, Some 1000, Some interruptedMessage).
Proof. split; vm_compute; reflexivity. Qed.

(** The same for every store: a requeued row keeps its [started_at]. *)
Lemma recoverOrphanedTasks_row s r :
  store_wf s -> In r s -> row_status r = RUNNING ->
  exists r',
    selectById (recoverOrphanedTasks s) (row_id r) = Some r' /\
    row_status r' = QUEUED /\
    row_error r' = Some interruptedMessage /\
    row_started_at r' = row_started_at r.
Proof.
  intros Hwf Hin Hst. exists (requeue r). split; [|done].
  pose proof (store_wf_recover s Hwf) as Hwf'.
  replace (row_id r) with (row_id (requeue r)) by done.
  apply selectById_wf; [done|].
  rewrite recoverOrphanedTasks_map by done.
  apply in_map_iff. exists r. by rewrite Hst.
Qed.

(** ** Order of the claim attempts *)

(** C7, as stated, fails: with "b" stored before "a" under the same
    timestamp, both ready, the pass attempts "b" first, and with one free
    slot it attempts "b" only, although "a" is the smaller id. *)
Lemma tie_not_broken_by_id :
  map (fun t => (id t, created_at t)) (getReadyTasks tieStore)
  = [("b"%string, 5); ("a"%string, 5)] /\
  String.ltb "a" "b" = true /\
  map id (tasksToExecute tieStore 2) = ["b"%string; "a"%string] /\
  map id (tasksToExecute tieStore 1) = ["b"%string] /\
  ~ StronglySorted createdThenId (tasksToExecute tieStore 2).
Proof.
  repeat split; try (vm_compute; reflexivity).
  intros Hs.
  assert (Heq : map (fun t => (id t, created_at t)) (tasksToExecute tieStore 2)
                = [("b"%string, 5); ("a"%string, 5)])
    by (vm_compute; reflexivity).
  destruct (tasksToExecute tieStore 2) as [|b [|a rest]]; [done..|].
  injection Heq as Hb Hcb Ha Hca _.
  apply StronglySorted_inv in Hs as [_ Hall].
  apply Forall_inv in Hall. unfold createdThenId in Hall.
  rewrite Hb, Ha, Hcb, Hca in Hall.
  destruct Hall as [Hlt|[_ Hle]]; [lia|].
  vm_compute in Hle. discriminate.
Qed.

Lemma filter_comm {A : Type} (p q : A -> bool) l :
  List.filter p (List.filter q l) = List.filter q (List.filter p l).
Proof.
  induction l as [|x l IH]; simpl; [done|].
  destruct (q x) eqn:Hq, (p x) eqn:Hp; simpl; rewrite ?Hq, ?Hp, IH; done.
Qed.

Lemma filter_sorted {A : Type} (R : A -> A -> Prop) (p : A -> bool) l :
  StronglySorted R l -> StronglySorted R (List.filter p l).
Proof.
  induction 1 as [|x l Hs IH Hall]; simpl; [constructor|].
  destruct (p x); [|done]. constructor; [done|].
  apply List.Forall_forall. intros y Hy. apply filter_In in Hy as [Hy _].
  by apply (proj1 (List.Forall_forall _ _) Hall).
Qed.

Lemma map_sorted {A B : Type} (f : A -> B) (R : B -> B -> Prop) l :
  StronglySorted (fun a b => R (f a) (f b)) l -> StronglySorted R (map f l).
Proof.
  induction 1 as [|x l Hs IH Hall]; simpl; constructor; [done|].
  apply List.Forall_forall. intros y Hy. apply in_map_iff in Hy as (a & <- & Ha).
  by apply (proj1 (List.Forall_forall _ _) Hall).
Qed.

(** The listing that [getReadyTasks] filters is already in [created_at]
    order, so the [sort] of the scheduler leaves it as it is. *)
Lemma getReadyTasks_sorted s :
  StronglySorted (keyLe created_at) (getReadyTasks s).
Proof.
  unfold getReadyTasks, getAllTasks, orderByCreatedAt.
  apply filter_sorted, map_sorted.
  apply (sortByKey_sorted row_created_at).
Qed.

(** C7, amended.  The attempts of a pass are the first [availableSlots]
    ready tasks in the order of [created_at]; among ready tasks with the
    same [created_at] the order is that of the rows in the table, whatever
    their ids. *)
Theorem tasksToExecute_fifo_stable (s : Store) (availableSlots : Z) :
  let ready := getReadyTasks s in
  tasksToExecute s availableSlots = firstn (Z.to_nat availableSlots) ready /\
  (exists rest, ready = tasksToExecute s availableSlots ++ rest) /\
  StronglySorted (fun a b => created_at a <= created_at b) ready /\
  (forall k,
     List.filter (fun t => created_at t =? k) ready
     = List.filter (isReady (completedIds (getAllTasks s)))
         (map rowToTask
            (List.filter (fun r => row_created_at r =? k) s))).
Proof.
  intros ready.
  assert (Hsort : sortByKey created_at ready = ready)
    by apply sortByKey_sorted_id, getReadyTasks_sorted.
  assert (Hfirst : tasksToExecute s availableSlots
                   = firstn (Z.to_nat availableSlots) ready)
    by (unfold tasksToExecute; fold ready; by rewrite Hsort).
  split; [done|]. split; [|split].
  - exists (skipn (Z.to_nat availableSlots) ready).
    rewrite Hfirst. symmetry. apply firstn_skipn.
  - apply getReadyTasks_sorted.
  - intros k. subst ready. unfold getReadyTasks. cbv zeta.
    rewrite filter_comm. f_equal.
    unfold getAllTasks, orderByCreatedAt.
    rewrite filter_map_swap. f_equal. simpl.
    apply (sortByKey_stable row_created_at).
Qed.

(** ** WAITING tasks and their dependencies *)

Lemma reachable_run maxc evs :
  forall sys, reachable maxc sys -> reachable maxc (run sys evs).
Proof.
  unfold run. induction evs as [|ev evs IH]; intros sys H; simpl; [done|].
  apply IH. by apply reach_step.
Qed.

(** C8, as stated, fails in a reachable state: once "a" has completed,
    "b" is still WAITING and its only dependency is COMPLETED. *)
Lemma waiting_after_dependency_completed :
  reachable 3 dependentSystem /\
  map (fun r => (row_id r, row_status r, row_dependencies r))
      (db dependentSystem)
  = [("a"%string, COMPLETED, []); ("b"%string, WAITING, ["a"%string])] /\
  ~ waitingHasPendingDep (db dependentSystem).
Proof.
  split; [|split].
  - apply reachable_run, reach_main. constructor.
  - vm_compute. reflexivity.
  - intros H.
    assert (Hdb : exists ra rb, db dependentSystem = [ra; rb] /\
              row_id ra = "a"%string /\ row_status ra = COMPLETED /\
              row_status rb = WAITING /\ row_dependencies rb = ["a"%string]).
    { eexists _, _. split; [vm_compute; reflexivity|]. by vm_compute. }
    destruct Hdb as (ra & rb & Hdb & Hida & Hsta & Hstb & Hdepb).
    rewrite Hdb in H.
    destruct (H rb) as (d & Hd & Hnot); [right; by left | done |].
    rewrite Hdepb in Hd. destruct Hd as [<-|[]].
    apply Hnot. exists ra. split; [by left | done].
Qed.

Lemma isReady_waiting done task :
  status task = WAITING ->
  isReady done task = allDepsIn done (dependencies task).
Proof. intros H. unfold isReady. by rewrite H. Qed.

Lemma terminalWrite_updateById s task outcome now :
  store_wf s ->
  exists st u,
    terminalWrite s task outcome now
    = updateById (id task) (applyUpdate st u) s /\
    st = match outcome with Resolved => COMPLETED | Rejected _ => FAILED end.
Proof.
  intros Hwf. unfold terminalWrite.
  destruct outcome as [|msg].
  - eexists _, _. split; [|done].
    pose proof (versioned_write s (id task) COMPLETED
      {| u_started_at := None; u_completed_at := Some now;
         u_error := None; u_retry_count := None |} Hwf) as H.
    destruct (getTaskWithVersion s (id task)) as [[t v]|];
      exact (f_equal fst H).
  - eexists _, _. split; [|done].
    pose proof (versioned_write s (id task) FAILED
      {| u_started_at := None; u_completed_at := Some now;
         u_error := Some msg; u_retry_count := None |} Hwf) as H.
    destruct (getTaskWithVersion s (id task)) as [[t v]|];
      exact (f_equal fst H).
Qed.

(** C8, amended.  A task is materialized as WAITING only when one of its
    dependencies is not COMPLETED in the store it is checked against.  The
    terminal write of a task rewrites the row of that task and no other, so
    a WAITING dependent stays WAITING; once all its dependencies are
    COMPLETED it is among the ready tasks, from where a pass claims it. *)
Theorem waiting_not_promoted_on_completion (s : Store) (Hwf : store_wf s) :
  (forall taskInput now,
     status (createTask s taskInput now) = WAITING ->
     exists d, In d (dependencies (createTask s taskInput now)) /\
               ~ completedIn s d) /\
  (forall task outcome now other,
     other <> id task ->
     selectById (terminalWrite s task outcome now) other
     = selectById s other) /\
  (forall r,
     In r s -> row_status r = WAITING ->
     (forall d, In d (row_dependencies r) -> completedIn s d) ->
     In (rowToTask r) (getReadyTasks s)).
Proof.
  split; [|split].
  - intros taskInput now. simpl.
    destruct (length (depsOrEmpty taskInput) =? 0)%nat; [done|].
    destruct (allDepsIn _ _) eqn:Hall; [done|]. intros _.
    apply allDepsIn_false in Hall as (d & Hin & Hd).
    exists d. split; [done|].
    intros Hc. apply Hd. by apply completedIds_spec.
  - intros task outcome now other Hne.
    destruct (terminalWrite_updateById s task outcome now Hwf)
      as (st & u & -> & _).
    rewrite selectById_updateById by apply applyUpdate_id.
    destruct (String.eqb_spec (id task) other); congruence.
  - intros r Hin Hst Hdeps. unfold getReadyTasks. cbv zeta.
    apply filter_In. split; [apply getAllTasks_In; eauto|].
    rewrite isReady_waiting by done. apply allDepsIn_spec.
    intros d Hd. apply completedIds_spec. by apply Hdeps.
Qed.

(** ** Steps of the system *)

Lemma selectById_app s r taskId :
  selectById (s ++ [r]) taskId
  = match selectById s taskId with
    | Some r0 => Some r0
    | None => if String.eqb (row_id r) taskId then Some r else None
    end.
Proof.
  unfold selectById. induction s as [|r0 s IH]; simpl; [done|].
  by destruct (String.eqb (row_id r0) taskId).
Qed.

Lemma submitTask_cases s taskInput now :
  submitTask s taskInput now = s \/
  (selectById s (in_id taskInput) = None /\
   submitTask s taskInput now = s ++ [taskToRow (createTask s taskInput now)]).
Proof.
  unfold submitTask, insertTask.
  destruct (valid _); [|by left]. simpl.
  destruct (selectById s (in_id taskInput)) eqn:E; [by left | by right].
Qed.

Lemma store_wf_submitTask s taskInput now :
  store_wf s -> store_wf (submitTask s taskInput now).
Proof.
  intros Hwf. destruct (submitTask_cases s taskInput now) as [->|[Hnew ->]];
    [done|].
  unfold store_wf. rewrite map_app. simpl.
  apply List.NoDup_app; [done | repeat constructor; by intros [] |].
  intros x Hx [<-|[]]. by apply selectById_None in Hnew.
Qed.

Lemma selectById_submitTask s taskInput now taskId r :
  selectById s taskId = Some r ->
  selectById (submitTask s taskInput now) taskId = Some r.
Proof.
  intros Hsel. destruct (submitTask_cases s taskInput now) as [->|[_ ->]];
    [done|].
  by rewrite selectById_app, Hsel.
Qed.

(** The claim of a stored task always succeeds. *)
Lemma executeTask_claimed sys task now :
  store_wf (db sys) ->
  is_Some (selectById (db sys) (id task)) ->
  exists u,
    executeTask sys task now
    = {| db := updateById (id task) (applyUpdate RUNNING u) (db sys);
         maxConcurrentTasks := maxConcurrentTasks sys;
         runningTasks := {[id task]} ∪ runningTasks sys;
         isRunning := isRunning sys;
         schedulerInterval := schedulerInterval sys;
         sleeping := sleeping sys ++ [task] |}.
Proof.
  intros Hwf Hsome. eexists. unfold executeTask.
  pose proof (versioned_write (db sys) (id task) RUNNING
    {| u_started_at := Some now; u_completed_at := None;
       u_error := None; u_retry_count := None |} Hwf) as H.
  rewrite bool_decide_eq_true_2 in H by done.
  unfold getTaskWithVersion in *.
  destruct Hsome as [r Hr]. rewrite Hr in *. cbn [option_map] in *.
  rewrite H. reflexivity.
Qed.

(** What a pass does to the system when every task it attempts is
    stored: all of them are claimed, in order. *)
Lemma fold_executeTask (clock : string -> Z) tasks :
  forall sys,
    store_wf (db sys) ->
    List.NoDup (map id tasks) ->
    (forall t, In t tasks -> is_Some (selectById (db sys) (id t))) ->
    let sys' := fold_left (fun acc task => executeTask acc task (clock (id task)))
                          tasks sys in
    map row_id (db sys') = map row_id (db sys) /\
    sleeping sys' = sleeping sys ++ tasks /\
    runningTasks sys' = list_to_set (map id tasks) ∪ runningTasks sys /\
    maxConcurrentTasks sys' = maxConcurrentTasks sys /\
    (forall x, ~ In x (map id tasks) ->
       selectById (db sys') x = selectById (db sys) x) /\
    (forall t, In t tasks ->
       exists r', selectById (db sys') (id t) = Some r' /\
                  row_status r' = RUNNING).
Proof.
  induction tasks as [|t tasks IH]; intros sys Hwf Hnd Hin; simpl.
  - rewrite app_nil_r. split; [done|]. split; [done|].
    split; [set_solver|]. split; [done|]. split; [done | by intros ? []].
  - apply List.NoDup_cons_iff in Hnd as [Hnotin Hnd].
    destruct (executeTask_claimed sys t (clock (id t)) Hwf) as [u Hexec];
      [apply Hin; by left|].
    rewrite Hexec.
    set (sys1 := {| db := updateById (id t) (applyUpdate RUNNING u) (db sys) |}).
    assert (Hwf1 : store_wf (db sys1))
      by (apply store_wf_updateById; [apply applyUpdate_id | done]).
    assert (Hsel1 : forall x, x <> id t ->
              selectById (db sys1) x = selectById (db sys) x).
    { intros x Hx. simpl.
      rewrite selectById_updateById by apply applyUpdate_id.
      destruct (String.eqb_spec (id t) x); congruence. }
    assert (Hin1 : forall t', In t' tasks ->
              is_Some (selectById (db sys1) (id t'))).
    { intros t' Ht'. rewrite Hsel1; [apply Hin; by right|].
      intros Heq. apply Hnotin. rewrite <- Heq. by apply in_map. }
    destruct (IH sys1 Hwf1 Hnd Hin1) as (Hids & Hsl & Hrun & Hmax & Hout & Hcl).
    split; [|split; [|split; [|split; [|split]]]].
    + rewrite Hids. simpl. apply updateById_ids, applyUpdate_id.
    + rewrite Hsl. simpl. by rewrite <- app_assoc.
    + rewrite Hrun. simpl. set_solver.
    + by rewrite Hmax.
    + intros x Hx. rewrite Hout by tauto. apply Hsel1. intros ->. tauto.
    + intros t' [<-|Ht']; [|by apply Hcl].
      rewrite Hout by done. simpl.
      rewrite selectById_updateById by apply applyUpdate_id.
      rewrite String.eqb_refl. destruct (Hin t (or_introl eq_refl)) as [r ->].
      by eexists.
Qed.

(** The tasks a pass attempts. *)
Lemma tasksToExecute_firstn s availableSlots :
  tasksToExecute s availableSlots
  = firstn (Z.to_nat availableSlots) (getReadyTasks s).
Proof.
  unfold tasksToExecute.
  by rewrite (sortByKey_sorted_id created_at _ (getReadyTasks_sorted s)).
Qed.

Lemma getReadyTasks_In s t :
  In t (getReadyTasks s) ->
  exists r, In r s /\ t = rowToTask r /\
            (row_status r = QUEUED \/ row_status r = WAITING).
Proof.
  unfold getReadyTasks. cbv zeta. intros H.
  apply filter_In in H as [Hin Hready].
  apply getAllTasks_In in Hin as (r & Hr & ->).
  exists r. split; [done|]. split; [done|].
  unfold isReady in Hready. simpl in Hready.
  destruct (row_status r); simpl in Hready; auto; discriminate.
Qed.

Lemma tasksToExecute_In s availableSlots t :
  In t (tasksToExecute s availableSlots) -> In t (getReadyTasks s).
Proof.
  rewrite tasksToExecute_firstn.
  rewrite <- (firstn_skipn (Z.to_nat availableSlots) (getReadyTasks s)) at 2.
  intros H. apply in_or_app. by left.
Qed.

Lemma tasksToExecute_NoDup s availableSlots :
  store_wf s -> List.NoDup (map id (tasksToExecute s availableSlots)).
Proof.
  intros Hwf. rewrite tasksToExecute_firstn.
  assert (Hready : List.NoDup (map id (getReadyTasks s))).
  { unfold getReadyTasks. cbv zeta.
    pose proof (getAllTasks_ids_NoDup s Hwf) as Hall.
    generalize (completedIds (getAllTasks s)). intros done.
    induction (getAllTasks s) as [|t l IH]; simpl in *; [constructor|].
    apply List.NoDup_cons_iff in Hall as [Hnotin Hall].
    destruct (isReady _ t); [|by apply IH].
    simpl. constructor; [|by apply IH].
    intros Hin. apply Hnotin. apply in_map_iff in Hin as (t' & Heq & Ht').
    apply filter_In in Ht' as [Ht' _]. rewrite <- Heq. by apply in_map. }
  rewrite <- (firstn_skipn (Z.to_nat availableSlots) (getReadyTasks s)) in Hready.
  rewrite map_app in Hready. by apply NoDup_app_remove_r in Hready.
Qed.

Lemma tasksToExecute_length s availableSlots :
  (length (tasksToExecute s availableSlots) <= Z.to_nat availableSlots)%nat.
Proof. rewrite tasksToExecute_firstn. apply firstn_le_length. Qed.

Lemma scheduleNextTasks_spec sys clock :
  store_wf (db sys) ->
  let sys' := scheduleNextTasks sys clock in
  exists tasks,
    (forall t, In t tasks ->
       exists r, In r (db sys) /\ t = rowToTask r /\
                 (row_status r = QUEUED \/ row_status r = WAITING)) /\
    List.NoDup (map id tasks) /\
    Z.of_nat (length tasks) <= Z.max 0 (freeSlots sys) /\
    map row_id (db sys') = map row_id (db sys) /\
    sleeping sys' = sleeping sys ++ tasks /\
    runningTasks sys' = list_to_set (map id tasks) ∪ runningTasks sys /\
    maxConcurrentTasks sys' = maxConcurrentTasks sys /\
    (forall x, ~ In x (map id tasks) ->
       selectById (db sys') x = selectById (db sys) x) /\
    (forall t, In t tasks ->
       exists r', selectById (db sys') (id t) = Some r' /\
                  row_status r' = RUNNING).
Proof.
  intros Hwf sys'.
  assert (Hidle : sys' = sys -> exists tasks : list Task,
    (forall t, In t tasks ->
       exists r, In r (db sys) /\ t = rowToTask r /\
                 (row_status r = QUEUED \/ row_status r = WAITING)) /\
    List.NoDup (map id tasks) /\
    Z.of_nat (length tasks) <= Z.max 0 (freeSlots sys) /\
    map row_id (db sys') = map row_id (db sys) /\
    sleeping sys' = sleeping sys ++ tasks /\
    runningTasks sys' = list_to_set (map id tasks) ∪ runningTasks sys /\
    maxConcurrentTasks sys' = maxConcurrentTasks sys /\
    (forall x, ~ In x (map id tasks) ->
       selectById (db sys') x = selectById (db sys) x) /\
    (forall t, In t tasks ->
       exists r', selectById (db sys') (id t) = Some r' /\
                  row_status r' = RUNNING)).
  { intros ->. exists []. simpl. rewrite app_nil_r.
    split; [by intros ? []|]. split; [constructor|]. split; [lia|].
    split; [done|]. split; [done|]. split; [set_solver|].
    split; [done|]. split; [done | by intros ? []]. }
  subst sys'. unfold scheduleNextTasks in *. fold (freeSlots sys) in *.
  destruct (negb (isRunning sys)); [by apply Hidle|].
  destruct (Z.leb_spec (freeSlots sys) 0) as [Hle|Hfree]; [by apply Hidle|].
  destruct (length (getReadyTasks (db sys)) =? 0)%nat; [by apply Hidle|].
  clear Hidle.
  exists (tasksToExecute (db sys) (freeSlots sys)).
  assert (Hstored : forall t, In t (tasksToExecute (db sys) (freeSlots sys)) ->
            exists r, In r (db sys) /\ t = rowToTask r /\
                      (row_status r = QUEUED \/ row_status r = WAITING))
    by (intros t Ht; by apply tasksToExecute_In, getReadyTasks_In in Ht).
  split; [done|].
  split; [by apply tasksToExecute_NoDup|].
  split; [pose proof (tasksToExecute_length (db sys) (freeSlots sys)); lia|].
  apply fold_executeTask; [done | by apply tasksToExecute_NoDup |].
  intros t Ht. destruct (Hstored t Ht) as (r & Hr & -> & _).
  exists r. by apply selectById_wf.
Qed.

Lemma store_wf_ids s s' :
  map row_id s' = map row_id s -> store_wf s -> store_wf s'.
Proof. unfold store_wf. by intros ->. Qed.

Lemma consistent_scheduleNextTasks sys clock :
  consistent sys -> consistent (scheduleNextTasks sys clock).
Proof.
  intros (Hwf & Hnd & Hrun & Hsl & Hall).
  destruct (scheduleNextTasks_spec sys clock Hwf)
    as (tasks & Hst & Hndt & _ & Hids & Hsl' & Hrun' & _ & Hout & Hcl).
  assert (Hwf' : store_wf (db (scheduleNextTasks sys clock)))
    by (by apply (store_wf_ids (db sys))).
  assert (Hdisj : forall x, In x (map id (sleeping sys)) ->
                    ~ In x (map id tasks)).
  { intros x Hx Hx'.
    apply in_map_iff in Hx as (t & <- & Ht).
    apply in_map_iff in Hx' as (t' & Heq & Ht').
    destruct (Hsl t Ht) as (r & Hr & Hrs).
    destruct (Hst t' Ht') as (r' & Hr' & -> & Hrs'). simpl in Heq.
    apply (selectById_wf _ _ Hwf) in Hr'. rewrite Heq, Hr in Hr'.
    injection Hr' as <-. rewrite Hrs in Hrs'. by destruct Hrs'. }
  split; [done|].
  rewrite Hsl', map_app. split; [by apply List.NoDup_app|].
  split; [rewrite Hrun', Hrun, list_to_set_app_L; set_solver|].
  split.
  - intros t Ht. apply in_app_or in Ht as [Ht|Ht]; [|by apply Hcl].
    rewrite Hout; [by apply Hsl|]. apply Hdisj. by apply in_map.
  - intros r' Hr' Hst'. apply in_or_app.
    destruct (in_dec string_dec (row_id r') (map id tasks)) as [Hin|Hnin];
      [by right|left].
    apply (selectById_wf _ _ Hwf') in Hr'. rewrite Hout in Hr' by done.
    apply selectById_Some in Hr' as [Hr' _]. by apply Hall.
Qed.

Lemma main_unfold s maxc clock :
  main s maxc clock
  = scheduleNextTasks
      {| db := recoverOrphanedTasks s; maxConcurrentTasks := maxc;
         runningTasks := ∅; isRunning := true; schedulerInterval := true;
         sleeping := [] |} clock.
Proof. reflexivity. Qed.

Lemma recovered_not_running s r :
  store_wf s -> In r (recoverOrphanedTasks s) -> row_status r <> RUNNING.
Proof.
  intros Hwf Hr Hst. rewrite recoverOrphanedTasks_map in Hr by done.
  apply in_map_iff in Hr as (r0 & <- & _).
  destruct (TaskStatus_eqb (row_status r0) RUNNING) eqn:E; simpl in Hst.
  - done.
  - rewrite Hst in E. done.
Qed.

Lemma consistent_main s maxc clock :
  store_wf s -> consistent (main s maxc clock).
Proof.
  intros Hwf. rewrite main_unfold. apply consistent_scheduleNextTasks.
  split; [by apply store_wf_recover|]. simpl.
  split; [constructor|]. split; [done|]. split; [by intros ? []|].
  intros r Hr Hst. exfalso. by apply (recovered_not_running s r Hwf Hr).
Qed.

Lemma removeAt_split {A : Type} (l : list A) i x :
  nth_error l i = Some x ->
  exists l1 l2, l = l1 ++ x :: l2 /\ removeAt i l = l1 ++ l2.
Proof.
  revert i. induction l as [|y l IH]; intros [|i] H; simpl in *; try done.
  - injection H as ->. by exists [], l.
  - destruct (IH i H) as (l1 & l2 & -> & Hrm).
    exists (y :: l1), l2. simpl. by rewrite Hrm.
Qed.

Lemma consistent_settle sys i task outcome now :
  consistent sys ->
  nth_error (sleeping sys) i = Some task ->
  consistent (step sys (EvSettle i outcome now)).
Proof.
  intros (Hwf & Hnd & Hrun & Hsl & Hall) Hnth. simpl. rewrite Hnth. simpl.
  destruct (removeAt_split _ _ _ Hnth) as (l1 & l2 & Hl & ->).
  destruct (terminalWrite_updateById (db sys) task outcome now Hwf)
    as (st & u & -> & Hstv).
  rewrite Hl, map_app in Hnd. simpl in Hnd.
  apply NoDup_remove in Hnd as [Hnd Hnotin]. rewrite <- map_app in *.
  split; [apply store_wf_updateById; [apply applyUpdate_id | done]|].
  split; [done|]. split; [|split].
  - rewrite Hrun, Hl, !map_app. simpl.
    rewrite map_app in Hnotin.
    rewrite !list_to_set_app_L. simpl.
    assert (id task ∉ (list_to_set (map id l1) : gset string)).
    { rewrite elem_of_list_to_set, list_elem_of_In. intros Hin.
      apply Hnotin, in_or_app. by left. }
    assert (id task ∉ (list_to_set (map id l2) : gset string)).
    { rewrite elem_of_list_to_set, list_elem_of_In. intros Hin.
      apply Hnotin, in_or_app. by right. }
    set_solver.
  - intros t Ht.
    assert (Hne : id task <> id t).
    { intros Heq. apply Hnotin. rewrite Heq. by apply in_map. }
    destruct (Hsl t) as (r & Hr & Hst).
    { rewrite Hl. apply in_app_or in Ht as [Ht|Ht];
        apply in_or_app; [by left | right; by right]. }
    exists r. split; [|done]. cbn [db].
    rewrite selectById_updateById by apply applyUpdate_id.
    by destruct (String.eqb_spec (id task) (id t)).
  - intros r' Hr' Hst'. unfold updateById in Hr'.
    apply in_map_iff in Hr' as (r0 & <- & Hr0).
    destruct (String.eqb_spec (row_id r0) (id task)) as [Heq|Hne].
    + exfalso. simpl in Hst'. rewrite Hst' in Hstv. by destruct outcome.
    + specialize (Hall r0 Hr0 Hst'). rewrite Hl, map_app in Hall.
      cbn [sleeping]. rewrite map_app. apply in_app_or in Hall as [Hin|[Hin|Hin]];
        apply in_or_app; [by left | congruence | by right].
Qed.

Lemma consistent_step sys ev : consistent sys -> consistent (step sys ev).
Proof.
  intros Hc. destruct ev as [taskInput now|clock|i outcome now| |clock].
  - destruct Hc as (Hwf & Hnd & Hrun & Hsl & Hall). simpl.
    split; [by apply store_wf_submitTask|]. split; [done|]. split; [done|].
    split.
    + intros t Ht. destruct (Hsl t Ht) as (r & Hr & Hst).
      exists r. split; [by apply selectById_submitTask | done].
    + intros r Hr Hst.
      destruct (submitTask_cases (db sys) taskInput now) as [Hs|[_ Hs]];
        rewrite Hs in Hr; [by apply Hall|].
      apply in_app_or in Hr as [Hr|[<-|[]]]; [by apply Hall|].
      exfalso. simpl in Hst.
      destruct (length _ =? 0)%nat; [done|].
      by destruct (allDepsIn _ _).
  - by apply consistent_scheduleNextTasks.
  - destruct (nth_error (sleeping sys) i) as [task|] eqn:Hnth.
    + by apply (consistent_settle _ _ task).
    + simpl. by rewrite Hnth.
  - simpl. unfold stop. by destruct (negb (isRunning sys)).
  - simpl. apply consistent_main. by destruct Hc.
Qed.

Lemma reachable_consistent maxc sys : reachable maxc sys -> consistent sys.
Proof.
  induction 1; [by apply consistent_main | by apply consistent_step].
Qed.

(** ** The concurrency bound *)

Lemma size_after_claims (running : gset string) (ids : list string) :
  (size (list_to_set ids ∪ running) <= length ids + size running)%nat.
Proof.
  induction ids as [|x ids IH]; simpl.
  - by rewrite (left_id_L ∅ (∪)).
  - rewrite <- (assoc_L (∪)).
    destruct (decide (x ∈ (list_to_set ids ∪ running : gset string))) as [Hx|Hx].
    + replace ({[x]} ∪ (list_to_set ids ∪ running))
        with (list_to_set ids ∪ running : gset string) by set_solver.
      lia.
    + rewrite size_union by set_solver. rewrite size_singleton. lia.
Qed.

Lemma bound_scheduleNextTasks sys clock maxc :
  store_wf (db sys) ->
  maxConcurrentTasks sys = maxc ->
  Z.of_nat (size (runningTasks sys)) <= maxc ->
  maxConcurrentTasks (scheduleNextTasks sys clock) = maxc /\
  Z.of_nat (size (runningTasks (scheduleNextTasks sys clock))) <= maxc.
Proof.
  intros Hwf Hmax Hsize.
  destruct (scheduleNextTasks_spec sys clock Hwf)
    as (tasks & _ & _ & Hlen & _ & _ & Hrun & Hmax' & _).
  split; [congruence|]. rewrite Hrun.
  pose proof (size_after_claims (runningTasks sys) (map id tasks)) as Hs.
  rewrite length_map in Hs. unfold freeSlots in Hlen. lia.
Qed.

Lemma reachable_bound maxc sys :
  0 <= maxc -> reachable maxc sys ->
  maxConcurrentTasks sys = maxc /\
  Z.of_nat (size (runningTasks sys)) <= maxc.
Proof.
  intros Hmaxc Hreach.
  induction Hreach as [s clock Hwf|sys ev Hreach [IHmax IHsize]].
  - rewrite main_unfold.
    apply bound_scheduleNextTasks; [by apply store_wf_recover | done |].
    cbn [runningTasks]. rewrite size_empty. lia.
  - apply reachable_consistent in Hreach as (Hwf & _).
    destruct ev as [taskInput now|clock|i outcome now| |clock]; simpl.
    + done.
    + by apply bound_scheduleNextTasks.
    + destruct (nth_error (sleeping sys) i); [|done]. simpl.
      split; [done|].
      assert (size (runningTasks sys ∖ {[id t]}) <= size (runningTasks sys))%nat
        by (apply subseteq_size; set_solver).
      lia.
    + unfold stop. by destruct (negb (isRunning sys)).
    + rewrite main_unfold.
      apply bound_scheduleNextTasks; [by apply store_wf_recover | done |].
      cbn [runningTasks]. rewrite size_empty. lia.
Qed.

Lemma running_rows_are_sleeping sys :
  consistent sys ->
  length (getTasksByStatus (db sys) RUNNING) = length (sleeping sys).
Proof.
  intros (Hwf & Hnd & _ & Hsl & Hall).
  rewrite <- (length_map id (getTasksByStatus _ _)).
  rewrite <- (length_map id (sleeping sys)).
  apply Permutation_length, Permutation.NoDup_Permutation;
    [by apply getTasksByStatus_NoDup | done |].
  intros x. rewrite !in_map_iff. split.
  - intros (t & <- & Ht).
    apply getTasksByStatus_In in Ht as (r & Hr & Hst & ->).
    apply in_map_iff. by apply Hall.
  - intros (t & <- & Ht). destruct (Hsl t Ht) as (r & Hr & Hst).
    apply selectById_Some in Hr as [Hr Hid].
    exists (rowToTask r). split; [done|].
    apply getTasksByStatus_In. by exists r.
Qed.

(** C2. With a non-negative [maxConcurrentTasks], in every reachable
    state the set [runningTasks] has at most that many elements; it has
    as many elements as there are suspended [executeTask] calls and as
    there are RUNNING tasks in the store; and a scheduler pass adds at most
    [maxConcurrentTasks - runningTasks.size] suspended calls. *)
Theorem runningTasks_bounded
    (maxc : Z) (sys : System)
    (Hmaxc : 0 <= maxc) (Hreach : reachable maxc sys) :
  Z.of_nat (size (runningTasks sys)) <= maxc /\
  length (sleeping sys) = size (runningTasks sys) /\
  length (getTasksByStatus (db sys) RUNNING) = size (runningTasks sys) /\
  forall clock,
    Z.of_nat (length (sleeping (scheduleNextTasks sys clock)))
    - Z.of_nat (length (sleeping sys))
    <= maxc - Z.of_nat (size (runningTasks sys)).
Proof.
  destruct (reachable_bound maxc sys Hmaxc Hreach) as [Hmax Hsize].
  pose proof (reachable_consistent maxc sys Hreach) as Hc.
  pose proof Hc as (Hwf & Hnd & Hrun & _).
  assert (Hlen : length (sleeping sys) = size (runningTasks sys)).
  { rewrite Hrun, size_list_to_set by (by apply NoDup_ListNoDup).
    by rewrite length_map. }
  split; [done|]. split; [done|]. split.
  - by rewrite running_rows_are_sleeping.
  - intros clock.
    destruct (scheduleNextTasks_spec sys clock Hwf)
      as (tasks & _ & _ & Hlen' & _ & Hsl & _).
    rewrite Hsl, length_app. unfold freeSlots in Hlen'. lia.
Qed.

(** ** Terminal states *)

(** A pass rewrites QUEUED and WAITING rows only. *)
Lemma scheduleNextTasks_keeps_row sys clock x r :
  store_wf (db sys) ->
  selectById (db sys) x = Some r ->
  row_status r <> QUEUED -> row_status r <> WAITING ->
  selectById (db (scheduleNextTasks sys clock)) x = Some r.
Proof.
  intros Hwf Hsel Hq Hw.
  destruct (scheduleNextTasks_spec sys clock Hwf)
    as (tasks & Hst & _ & _ & _ & _ & _ & _ & Hout & _).
  rewrite Hout; [done|]. intros Hin.
  apply in_map_iff in Hin as (t & Heq & Ht).
  destruct (Hst t Ht) as (r' & Hr' & -> & Hrs). simpl in Heq.
  apply (selectById_wf _ _ Hwf) in Hr'. rewrite Heq, Hsel in Hr'.
  injection Hr' as <-. by destruct Hrs.
Qed.

(** Recovery rewrites RUNNING rows only. *)
Lemma recoverOrphanedTasks_keeps_row s x r :
  store_wf s ->
  selectById s x = Some r -> row_status r <> RUNNING ->
  selectById (recoverOrphanedTasks s) x = Some r.
Proof.
  intros Hwf Hsel Hst. apply selectById_Some in Hsel as [Hin <-].
  apply selectById_wf; [by apply store_wf_recover|].
  rewrite recoverOrphanedTasks_map by done.
  apply in_map_iff. exists r. split; [|done].
  destruct (TaskStatus_eqb (row_status r) RUNNING) eqn:E; [|done].
  by apply TaskStatus_eqb_eq in E.
Qed.

Lemma main_keeps_row s maxc clock x r :
  store_wf s ->
  selectById s x = Some r -> terminal (row_status r) ->
  selectById (db (main s maxc clock)) x = Some r.
Proof.
  intros Hwf Hsel Hterm. rewrite main_unfold.
  apply scheduleNextTasks_keeps_row; simpl.
  - by apply store_wf_recover.
  - apply recoverOrphanedTasks_keeps_row; [done..|].
    destruct Hterm as [-> | ->]; done.
  - destruct Hterm as [-> | ->]; done.
  - destruct Hterm as [-> | ->]; done.
Qed.

(** No step rewrites the row of a COMPLETED or FAILED task. *)
Lemma step_keeps_terminal_row sys ev x r :
  consistent sys ->
  selectById (db sys) x = Some r -> terminal (row_status r) ->
  selectById (db (step sys ev)) x = Some r.
Proof.
  intros (Hwf & Hnd & Hrun & Hsl & _) Hsel Hterm.
  destruct ev as [taskInput now|clock|i outcome now| |clock]; simpl.
  - by apply selectById_submitTask.
  - apply scheduleNextTasks_keeps_row; [done..| |];
      destruct Hterm as [-> | ->]; done.
  - destruct (nth_error (sleeping sys) i) as [task|] eqn:Hnth; [|done].
    cbn [db resumeTask].
    destruct (terminalWrite_updateById (db sys) task outcome now Hwf)
      as (st & u & -> & _).
    rewrite selectById_updateById by apply applyUpdate_id.
    destruct (String.eqb_spec (id task) x) as [<-|Hne]; [|done].
    destruct (Hsl task) as (r' & Hr' & Hst'); [by eapply nth_error_In|].
    rewrite Hsel in Hr'. injection Hr' as <-. rewrite Hst' in Hterm.
    destruct Hterm; done.
  - unfold stop. by destruct (negb (isRunning sys)).
  - by apply main_keeps_row.
Qed.

Lemma getTask_status s x t :
  getTask s x = Some t ->
  exists r, selectById s x = Some r /\ t = rowToTask r /\
            row_status r = status t.
Proof.
  unfold getTask. destruct (selectById s x) as [r|]; [|done].
  intros [= <-]. by exists r.
Qed.

(** C3. From a reachable state on, whatever events follow (submissions,
    scheduler passes with their claims, terminal writes of either outcome,
    stop, restart with its recovery), a task that is COMPLETED or FAILED
    keeps that status. *)
Theorem terminal_status_never_exited
    (maxc : Z) (sys : System) (evs : list Event)
    (taskId : string) (t : Task)
    (Hreach : reachable maxc sys)
    (Hget : getTask (db sys) taskId = Some t)
    (Hterm : status t = COMPLETED \/ status t = FAILED) :
  exists t',
    getTask (db (run sys evs)) taskId = Some t' /\ status t' = status t.
Proof.
  exists t. split; [|done].
  apply getTask_status in Hget as (r & Hsel & -> & Hst).
  rewrite <- Hst in Hterm.
  enough (selectById (db (run sys evs)) taskId = Some r) as H
    by (unfold getTask; by rewrite H).
  apply reachable_consistent in Hreach. clear Hst.
  revert sys Hreach Hsel. unfold run.
  induction evs as [|ev evs IH]; intros sys Hc Hsel; simpl; [done|].
  apply IH; [by apply consistent_step | by apply step_keeps_terminal_row].
Qed.

(** ** Terminal states under the public interface *)

Lemma recoverOrphanedTasks_row_cases s x r :
  store_wf s -> selectById s x = Some r ->
  exists r',
    selectById (recoverOrphanedTasks s) x = Some r' /\
    (r' = r \/ (row_status r = RUNNING /\ row_status r' = QUEUED)).
Proof.
  intros Hwf Hsel.
  destruct (TaskStatus_eqb (row_status r) RUNNING) eqn:E.
  - apply TaskStatus_eqb_eq in E.
    apply selectById_Some in Hsel as [Hin <-].
    destruct (recoverOrphanedTasks_row s r Hwf Hin E) as (r' & Hr' & Hst & _).
    exists r'. split; [done | by right].
  - exists r. split; [|by left].
    apply recoverOrphanedTasks_keeps_row; [done..|].
    intros Hst. by rewrite Hst in E.
Qed.

Lemma removeAt_In {A : Type} (l : list A) i x :
  In x (removeAt i l) -> In x l.
Proof.
  revert i. induction l as [|y l IH]; intros [|i]; simpl; try tauto.
  intros [->|H]; [by left | right; by apply (IH i)].
Qed.

Lemma sleepersNotFailed_scheduleNextTasks sys clock :
  sleepersNotFailed sys -> sleepersNotFailed (scheduleNextTasks sys clock).
Proof.
  intros (Hwf & Hsl).
  destruct (scheduleNextTasks_spec sys clock Hwf)
    as (tasks & _ & _ & _ & Hids & Hsl' & _ & _ & Hout & Hcl).
  split; [by apply (store_wf_ids (db sys))|].
  assert (Hclaimed : forall x, In x (map id tasks) ->
            exists r, selectById (db (scheduleNextTasks sys clock)) x = Some r
                      /\ row_status r <> FAILED).
  { intros x Hx. apply in_map_iff in Hx as (t & <- & Ht).
    destruct (Hcl t Ht) as (r & Hr & Hst). exists r. by rewrite Hst. }
  intros t Ht. rewrite Hsl' in Ht.
  destruct (in_dec string_dec (id t) (map id tasks)) as [Hin|Hnin];
    [by apply Hclaimed|].
  apply in_app_or in Ht as [Ht|Ht]; [|exfalso; apply Hnin; by apply in_map].
  rewrite Hout by done. by apply Hsl.
Qed.

Lemma sleepersNotFailed_start sys clock :
  sleepersNotFailed sys -> sleepersNotFailed (start sys clock).
Proof.
  intros (Hwf & Hsl). unfold start. destruct (isRunning sys); [done|].
  apply sleepersNotFailed_scheduleNextTasks.
  split; [by apply store_wf_recover|]. cbn [db sleeping].
  intros t Ht. destruct (Hsl t Ht) as (r & Hr & Hst).
  destruct (recoverOrphanedTasks_row_cases _ _ _ Hwf Hr)
    as (r' & Hr' & [Heq|[_ Hq]]); exists r'; (split; [done|]).
  - by rewrite Heq.
  - by rewrite Hq.
Qed.

Lemma sleepersNotFailed_main s maxc clock :
  store_wf s -> sleepersNotFailed (main s maxc clock).
Proof.
  intros Hwf. apply sleepersNotFailed_start. split; [done | by intros ? []].
Qed.

Lemma sleepersNotFailed_step sys e :
  sleepersNotFailed sys -> resolves e = true ->
  sleepersNotFailed (stepApi sys e).
Proof.
  intros Hinv Hres. pose proof Hinv as (Hwf & Hsl).
  destruct e as [[taskInput now|clock|i outcome now| |clock]|clock]; simpl.
  - split; [by apply store_wf_submitTask|]. cbn [db sleeping setDb].
    intros t Ht. destruct (Hsl t Ht) as (r & Hr & Hst).
    exists r. split; [by apply selectById_submitTask | done].
  - by apply sleepersNotFailed_scheduleNextTasks.
  - destruct (nth_error (sleeping sys) i) as [task|] eqn:Hnth; [|done].
    destruct outcome as [|msg]; [|done]. cbn [db sleeping resumeTask].
    destruct (terminalWrite_updateById (db sys) task Resolved now Hwf)
      as (st & u & -> & ->).
    split; [apply store_wf_updateById; [apply applyUpdate_id | done]|].
    intros t Ht. apply removeAt_In in Ht.
    destruct (Hsl t Ht) as (r & Hr & Hst).
    pose proof (selectById_updateById (id task) (applyUpdate COMPLETED u)
                  (db sys) (id t) (applyUpdate_id COMPLETED u)) as Hupd.
    rewrite Hr in Hupd.
    destruct (String.eqb (id task) (id t)); eexists; (split; [exact Hupd|]);
      done.
  - unfold stop. by destruct (negb (isRunning sys)).
  - apply sleepersNotFailed_main. by destruct Hinv.
  - by apply sleepersNotFailed_start.
Qed.

Lemma start_keeps_row sys clock x r :
  store_wf (db sys) ->
  selectById (db sys) x = Some r -> terminal (row_status r) ->
  selectById (db (start sys clock)) x = Some r.
Proof.
  intros Hwf Hsel Hterm. unfold start. destruct (isRunning sys); [done|].
  apply scheduleNextTasks_keeps_row; cbn [db].
  - by apply store_wf_recover.
  - apply recoverOrphanedTasks_keeps_row; [done..|].
    destruct Hterm as [-> | ->]; done.
  - destruct Hterm as [-> | ->]; done.
  - destruct Hterm as [-> | ->]; done.
Qed.

Lemma stepApi_keeps_terminal_status sys e x r :
  sleepersNotFailed sys -> resolves e = true ->
  selectById (db sys) x = Some r -> terminal (row_status r) ->
  exists r', selectById (db (stepApi sys e)) x = Some r' /\
             row_status r' = row_status r.
Proof.
  intros (Hwf & Hsl) Hres Hsel Hterm.
  destruct e as [[taskInput now|clock|i outcome now| |clock]|clock]; simpl.
  - exists r. split; [by apply selectById_submitTask | done].
  - exists r. split; [|done].
    apply scheduleNextTasks_keeps_row; [done..| |];
      destruct Hterm as [-> | ->]; done.
  - destruct (nth_error (sleeping sys) i) as [task|] eqn:Hnth; [|by exists r].
    destruct outcome as [|msg]; [|done]. cbn [db resumeTask].
    destruct (terminalWrite_updateById (db sys) task Resolved now Hwf)
      as (st & u & -> & ->).
    rewrite selectById_updateById by apply applyUpdate_id. rewrite Hsel.
    destruct (String.eqb_spec (id task) x) as [<-|Hne]; [|by exists r].
    eexists. split; [done|]. simpl.
    destruct (Hsl task) as (r0 & Hr0 & Hst0); [by eapply nth_error_In|].
    rewrite Hsel in Hr0. injection Hr0 as <-.
    destruct Hterm as [->|Hf]; done.
  - exists r. split; [|done]. unfold stop. by destruct (negb (isRunning sys)).
  - exists r. split; [by apply main_keeps_row | done].
  - exists r. split; [by apply start_keeps_row | done].
Qed.

Lemma reachableApi_sleepersNotFailed maxc sys :
  reachableApi maxc sys -> sleepersNotFailed sys.
Proof.
  induction 1; [by apply sleepersNotFailed_main |
                by apply sleepersNotFailed_step].
Qed.

(** With the runner of the source, terminal statuses are stable under
    the public interface as well: a COMPLETED task can be written again by
    a second suspended call, but only with COMPLETED. *)
Lemma terminal_status_stable_reference_runner
    (maxc : Z) (sys : System) (es : list ApiEvent)
    (taskId : string) (t : Task) :
  reachableApi maxc sys ->
  forallb resolves es = true ->
  getTask (db sys) taskId = Some t ->
  terminal (status t) ->
  exists t',
    getTask (db (runApi sys es)) taskId = Some t' /\ status t' = status t.
Proof.
  intros Hreach Hres Hget Hterm.
  apply getTask_status in Hget as (r & Hsel & -> & Hst). simpl.
  rewrite <- Hst in Hterm. clear Hst.
  apply reachableApi_sleepersNotFailed in Hreach.
  enough (exists r', selectById (db (runApi sys es)) taskId = Some r' /\
                     row_status r' = row_status r) as (r' & Hr' & Hst')
    by (exists (rowToTask r'); unfold getTask; by rewrite Hr').
  revert sys r Hreach Hsel Hterm. unfold runApi.
  induction es as [|e es IH]; intros sys r Hinv Hsel Hterm; simpl;
    [by exists r|].
  simpl in Hres. apply andb_true_iff in Hres as [He Hes].
  destruct (stepApi_keeps_terminal_status sys e taskId r Hinv He Hsel Hterm)
    as (r1 & Hsel1 & Hst1).
  destruct (IH Hes (stepApi sys e) r1) as (r' & Hr' & Hst');
    [by apply sleepersNotFailed_step | done | by rewrite Hst1 |].
  exists r'. split; [done | congruence].
Qed.

(** ** Instances on the sample stores *)

Lemma updateTaskStatus_version_gate_witness :
  store_wf crashedStore /\
  (snd (updateTaskStatus crashedStore "a" COMPLETED 1 no_updates) = true <->
   exists r, selectById crashedStore "a" = Some r /\ row_version r = 1).
Proof.
  assert (Hwf : store_wf crashedStore)
    by (apply store_wf_check; vm_compute; reflexivity).
  split; [exact Hwf|].
  pose proof (updateTaskStatus_version_gate
                crashedStore "a" COMPLETED 1 no_updates Hwf) as W.
  destruct (updateTaskStatus crashedStore "a" COMPLETED 1 no_updates)
    as [s' claimed].
  exact (proj1 W).
Defined.

Lemma updateTaskStatus_ignores_status_witness :
  store_wf (db dependentSystem) /\
  selectById (db dependentSystem) "a" = Some completedRowA /\
  row_status completedRowA = COMPLETED /\
  exists s' r',
    updateTaskStatus (db dependentSystem) "a" QUEUED
      (row_version completedRowA) no_updates = (s', true) /\
    selectById s' "a" = Some r' /\
    row_status r' = QUEUED /\
    row_version r' = row_version completedRowA + 1.
Proof.
  assert (Hwf : store_wf (db dependentSystem))
    by (apply store_wf_check; vm_compute; reflexivity).
  assert (Hsel : selectById (db dependentSystem) "a" = Some completedRowA)
    by (vm_compute; reflexivity).
  split; [exact Hwf|]. split; [exact Hsel|]. split; [reflexivity|].
  exact (updateTaskStatus_ignores_status (db dependentSystem) "a"
           completedRowA COMPLETED QUEUED no_updates Hwf Hsel eq_refl).
Defined.

Lemma createTask_initial_status_witness :
  store_wf (db dependentSystem) /\
  status (createTask (db dependentSystem) (sampleInput "c" ["a"%string]) 10)
  = QUEUED.
Proof.
  assert (Hwf : store_wf (db dependentSystem))
    by (apply store_wf_check; vm_compute; reflexivity).
  split; [exact Hwf|].
  apply (createTask_initial_status (db dependentSystem)
           (sampleInput "c" ["a"%string]) 10 Hwf).
  right. intros d [<-|[]].
  exists (rowToTask completedRowA). split; vm_compute; reflexivity.
Defined.

Lemma danglingStore_acyclic x : ~ tc (dependsOn danglingStore) x x.
Proof.
  assert (Hedge : forall a b, dependsOn danglingStore a b ->
                    a = "a"%string /\ b = "n"%string).
  { intros a b (r & [<-|[]] & <- & [<-|[]]). done. }
  intros Hcyc. inversion Hcyc as [? ? H1|? y ? H1 H2]; subst.
  - by destruct (Hedge _ _ H1) as [-> ?].
  - destruct (Hedge _ _ H1) as [-> ->].
    inversion H2 as [? ? H3|? ? ? H3 _]; subst;
      by destruct (Hedge _ _ H3).
Qed.

Lemma validateTaskInput_rejects_iff_cycle_witness :
  store_wf danglingStore /\
  getTask danglingStore "n" = None /\
  checkDependencies danglingStore "n" ["a"%string] = None /\
  (valid (validateTaskInput danglingStore (sampleInput "n" ["a"%string]))
   = false <->
   exists d, In d ["a"%string] /\ rtc (dependsOn danglingStore) d "n").
Proof.
  assert (Hwf : store_wf danglingStore)
    by (apply store_wf_check; vm_compute; reflexivity).
  split; [exact Hwf|]. split; [reflexivity|]. split; [reflexivity|].
  apply (validateTaskInput_rejects_iff_cycle danglingStore
           (sampleInput "n" ["a"%string]) Hwf danglingStore_acyclic).
  - discriminate.
  - discriminate.
  - simpl. lia.
  - reflexivity.
  - reflexivity.
Defined.

Lemma recoverOrphanedTasks_idempotent_witness :
  store_wf crashedStore /\
  recoverOrphanedTasks (recoverOrphanedTasks crashedStore)
  = recoverOrphanedTasks crashedStore.
Proof.
  assert (Hwf : store_wf crashedStore)
    by (apply store_wf_check; vm_compute; reflexivity).
  split; [exact Hwf|].
  exact (proj2 (recoverOrphanedTasks_idempotent crashedStore Hwf)).
Defined.

Lemma waiting_not_promoted_on_completion_witness :
  store_wf (db dependentSystem) /\
  In (rowToTask waitingRowB) (getReadyTasks (db dependentSystem)).
Proof.
  assert (Hwf : store_wf (db dependentSystem))
    by (apply store_wf_check; vm_compute; reflexivity).
  split; [exact Hwf|].
  apply (waiting_not_promoted_on_completion (db dependentSystem) Hwf).
  - vm_compute. right. left. reflexivity.
  - reflexivity.
  - intros d [<-|[]]. exists completedRowA.
    split; [vm_compute; left; reflexivity | split; reflexivity].
Defined.

Lemma runningTasks_bounded_witness :
  0 <= 3 /\ reachable 3 dependentSystem /\
  Z.of_nat (size (runningTasks dependentSystem)) <= 3.
Proof.
  assert (Hreach : reachable 3 dependentSystem)
    by (apply reachable_run, reach_main; constructor).
  split; [lia|]. split; [exact Hreach|].
  apply (runningTasks_bounded 3 dependentSystem); [lia | exact Hreach].
Defined.

Lemma terminal_status_never_exited_witness :
  reachable 3 dependentSystem /\
  getTask (db dependentSystem) "a" = Some (rowToTask completedRowA) /\
  exists t',
    getTask (db (run dependentSystem laterEvents)) "a" = Some t' /\
    status t' = COMPLETED.
Proof.
  assert (Hreach : reachable 3 dependentSystem)
    by (apply reachable_run, reach_main; constructor).
  assert (Hget : getTask (db dependentSystem) "a"
                 = Some (rowToTask completedRowA))
    by (vm_compute; reflexivity).
  split; [exact Hreach|]. split; [exact Hget|].
  apply (terminal_status_never_exited 3 dependentSystem laterEvents "a"
           (rowToTask completedRowA) Hreach Hget).
  left. reflexivity.
Defined.

(** * Further properties of the store *)

(** ** Insertion and lookup *)

(** X1. A task inserted under a fresh id is read back, at version 0,
    with its id, type, duration, dependencies, status and creation time;
    its retry count is read as 0 when it had none; every other id reads
    as before. *)
Theorem insertTask_then_getTask
    (s : Store) (task : Task) (Hfresh : selectById s (id task) = None) :
  let s' := fst (insertTask s task) in
  snd (insertTask s task) = true /\
  (exists t,
     getTaskWithVersion s' (id task) = Some (t, 0) /\
     getTask s' (id task) = Some t /\
     id t = id task /\ type t = type task /\
     duration_ms t = duration_ms task /\
     dependencies t = dependencies task /\
     status t = status task /\ created_at t = created_at task /\
     retry_count t = Some (default 0 (retry_count task))) /\
  (forall other, other <> id task -> getTask s' other = getTask s other).
Proof.
  unfold insertTask. rewrite Hfresh. simpl. split; [done|]. split.
  - exists (rowToTask (taskToRow task)).
    unfold getTaskWithVersion, getTask. rewrite selectById_app, Hfresh.
    simpl. rewrite String.eqb_refl. simpl.
    repeat (split; [done|]). by destruct (retry_count task).
  - intros other Hne. unfold getTask. rewrite selectById_app.
    destruct (selectById s other); [done|]. simpl.
    by destruct (String.eqb_spec (id task) other).
Qed.

Lemma insertTask_then_getTask_witness :
  selectById crashedStore (id sampleTask) = None /\
  getTask (fst (insertTask crashedStore sampleTask)) "a"
  = getTask crashedStore "a".
Proof.
  assert (Hfresh : selectById crashedStore (id sampleTask) = None)
    by (vm_compute; reflexivity).
  split; [exact Hfresh|].
  apply (insertTask_then_getTask crashedStore sampleTask Hfresh).
  discriminate.
Defined.



Lemma truthyZ_idem o : truthyZ (truthyZ o) = truthyZ o.
Proof.
  destruct o as [z|]; simpl; [|done].
  destruct (z =? 0) eqn:E; simpl; [done | by rewrite E].
Qed.

Lemma truthyString_idem o : truthyString (truthyString o) = truthyString o.
Proof.
  destruct o as [x|]; simpl; [|done].
  destruct (String.eqb x EmptyString) eqn:E; simpl; [done | by rewrite E].
Qed.

(** X3. Reading normalizes once and for all: a task read from a row,
    written to a row and read again is the same task.  What the reading
    drops is a timestamp 0 and an empty error text, which are read as
    absent, and it never yields a task without a retry count. *)
Theorem rowToTask_taskToRow_stable (r : Row) :
  rowToTask (taskToRow (rowToTask r)) = rowToTask r /\
  started_at (rowToTask r) <> Some 0 /\
  completed_at (rowToTask r) <> Some 0 /\
  error (rowToTask r) <> Some EmptyString /\
  retry_count (rowToTask r) <> None.
Proof.
  split; [|split; [|split; [|split]]].
  - unfold rowToTask, taskToRow. simpl.
    rewrite !truthyZ_idem, !truthyString_idem.
    by destruct (row_retry_count r).
  - simpl. destruct (row_started_at r) as [z|]; simpl; [|done].
    destruct (Z.eqb_spec z 0); congruence.
  - simpl. destruct (row_completed_at r) as [z|]; simpl; [|done].
    destruct (Z.eqb_spec z 0); congruence.
  - simpl. destruct (row_error r) as [x|]; simpl; [|done].
    destruct (String.eqb_spec x EmptyString); congruence.
  - simpl. by destruct (row_retry_count r).
Qed.

(** ** Listings *)

(** X4. [getAllTasks] lists every stored task exactly once, in
    non-decreasing order of [created_at]. *)
Theorem getAllTasks_complete_sorted (s : Store) :
  Permutation (getAllTasks s) (map rowToTask s) /\
  length (getAllTasks s) = length s /\
  StronglySorted (fun a b => created_at a <= created_at b) (getAllTasks s).
Proof.
  assert (Hperm : Permutation (getAllTasks s) (map rowToTask s)).
  { unfold getAllTasks, orderByCreatedAt.
    apply Permutation_map, sortByKey_perm. }
  split; [done|]. split.
  - rewrite (Permutation_length Hperm). apply length_map.
  - unfold getAllTasks, orderByCreatedAt. apply map_sorted.
    apply (sortByKey_sorted row_created_at).
Qed.

Lemma insertByKey_filter {A : Type} (key : A -> Z) (p : A -> bool) x l :
  StronglySorted (keyLe key) l ->
  List.filter p (insertByKey key x l)
  = if p x then insertByKey key x (List.filter p l) else List.filter p l.
Proof.
  induction 1 as [|y l Hs IH Hall]; simpl; [by destruct (p x)|].
  destruct (Z.leb_spec (key x) (key y)) as [Hle|Hgt].
  - simpl. destruct (p x) eqn:Hpx; [|done].
    symmetry. apply insertByKey_sorted_id.
    assert (Hx : Forall (keyLe key x) (y :: l)).
    { constructor; [done|]. eapply Forall_impl; [exact Hall|].
      unfold keyLe. simpl. lia. }
    apply List.Forall_forall. intros z Hz.
    change (In z (List.filter p (y :: l))) in Hz.
    apply filter_In in Hz as [Hz _].
    by apply (proj1 (List.Forall_forall _ _) Hx).
  - simpl. rewrite IH. destruct (p y) eqn:Hpy, (p x) eqn:Hpx; simpl; try done.
    destruct (Z.leb_spec (key x) (key y)); [lia|done].
Qed.

Lemma sortByKey_filter {A : Type} (key : A -> Z) (p : A -> bool) l :
  sortByKey key (List.filter p l) = List.filter p (sortByKey key l).
Proof.
  induction l as [|x l IH]; simpl; [done|].
  rewrite insertByKey_filter by apply sortByKey_sorted.
  destruct (p x); simpl; by rewrite IH.
Qed.

(** X5. The listing by status is the full listing with the other
    statuses left out, in the same order: what [GET /tasks?status=S]
    returns is what [GET /tasks] returns, restricted to [S]. *)
Theorem getTasksByStatus_filters_getAllTasks (s : Store) (st : TaskStatus) :
  getTasksByStatus s st
  = List.filter (fun t => TaskStatus_eqb (status t) st) (getAllTasks s).
Proof.
  unfold getTasksByStatus, getAllTasks, orderByCreatedAt.
  rewrite filter_map_swap. f_equal. simpl. apply sortByKey_filter.
Qed.

Lemma getReadyTasks_char s t :
  In t (getReadyTasks s) <->
  exists r, In r s /\ t = rowToTask r /\
            (row_status r = QUEUED \/ row_status r = WAITING) /\
            forall d, In d (row_dependencies r) -> completedIn s d.
Proof.
  unfold getReadyTasks. cbv zeta. rewrite filter_In, getAllTasks_In. split.
  - intros [(r & Hr & ->) Hready]. exists r. split; [done|]. split; [done|].
    unfold isReady in Hready. simpl in Hready.
    assert (Hst : row_status r = QUEUED \/ row_status r = WAITING)
      by (destruct (row_status r); simpl in Hready; auto; discriminate).
    split; [done|]. intros d Hd. apply completedIds_spec.
    assert (Hall : allDepsIn (completedIds (getAllTasks s))
                     (row_dependencies r) = true)
      by (destruct Hst as [Hst|Hst]; by rewrite Hst in Hready).
    by apply (proj1 (allDepsIn_spec _ _) Hall).
  - intros (r & Hr & -> & Hst & Hdeps). split; [by exists r|].
    unfold isReady. simpl.
    assert (Hall : allDepsIn (completedIds (getAllTasks s))
                     (row_dependencies r) = true).
    { apply allDepsIn_spec. intros d Hd. apply completedIds_spec.
      by apply Hdeps. }
    destruct Hst as [-> | ->]; simpl; done.
Qed.

(** X6. A task is ready exactly when it is stored as QUEUED or WAITING
    and each of its dependencies is stored as COMPLETED; in particular a
    QUEUED or WAITING task without dependencies is always ready. *)
Theorem getReadyTasks_iff (s : Store) (t : Task) :
  In t (getReadyTasks s) <->
  exists r, In r s /\ t = rowToTask r /\
            (row_status r = QUEUED \/ row_status r = WAITING) /\
            forall d, In d (row_dependencies r) -> completedIn s d.
Proof. apply getReadyTasks_char. Qed.

(** ** Statistics *)

Lemma sum_caseWhenStatus st s :
  fold_right Z.add 0 (map (caseWhenStatus st) s)
  = Z.of_nat (length (List.filter (fun r => TaskStatus_eqb (row_status r) st) s)).
Proof.
  induction s as [|r s IH]; simpl; [done|]. rewrite IH.
  unfold caseWhenStatus. destruct (TaskStatus_eqb (row_status r) st); simpl; lia.
Qed.

Lemma numberOrZero_sqlSum st s :
  numberOrZero (sqlSum (map (caseWhenStatus st) s))
  = Z.of_nat (length (getTasksByStatus s st)).
Proof.
  assert (Hlen : length (getTasksByStatus s st)
                 = length (List.filter
                             (fun r => TaskStatus_eqb (row_status r) st) s)).
  { unfold getTasksByStatus, orderByCreatedAt. rewrite length_map.
    apply Permutation_length, sortByKey_perm. }
  rewrite Hlen, <- sum_caseWhenStatus.
  destruct s as [|r s]; [done|].
  unfold sqlSum, numberOrZero. cbn [map].
  by destruct (Z.eqb_spec (fold_right Z.add 0
                 (caseWhenStatus st r :: map (caseWhenStatus st) s)) 0)
    as [->|].
Qed.

Lemma length_by_status (s : Store) :
  (length s
   = length (List.filter (fun r => TaskStatus_eqb (row_status r) QUEUED) s)
   + length (List.filter (fun r => TaskStatus_eqb (row_status r) RUNNING) s)
   + length (List.filter (fun r => TaskStatus_eqb (row_status r) COMPLETED) s)
   + length (List.filter (fun r => TaskStatus_eqb (row_status r) FAILED) s)
   + length (List.filter (fun r => TaskStatus_eqb (row_status r) WAITING) s))%nat.
Proof.
  induction s as [|r s IH]; simpl; [done|].
  destruct (row_status r); simpl; lia.
Qed.

(** X7. Each count of [getStats] is the length of the listing by that
    status, [total] is the number of stored tasks, and the five counts add
    up to [total]; on an empty table, where the SQL sums are [NULL], all of
    them are 0. *)
Theorem getStats_counts (s : Store) :
  total (getStats s) = Z.of_nat (length s) /\
  queued (getStats s) = Z.of_nat (length (getTasksByStatus s QUEUED)) /\
  running (getStats s) = Z.of_nat (length (getTasksByStatus s RUNNING)) /\
  completed (getStats s) = Z.of_nat (length (getTasksByStatus s COMPLETED)) /\
  failed (getStats s) = Z.of_nat (length (getTasksByStatus s FAILED)) /\
  waiting (getStats s) = Z.of_nat (length (getTasksByStatus s WAITING)) /\
  total (getStats s)
  = queued (getStats s) + running (getStats s) + completed (getStats s)
    + failed (getStats s) + waiting (getStats s).
Proof.
  assert (Htotal : total (getStats s) = Z.of_nat (length s)).
  { simpl. by destruct (Z.eqb_spec (Z.of_nat (length s)) 0) as [->|]. }
  unfold getStats in *. cbn [total queued running completed failed waiting] in *.
  rewrite !numberOrZero_sqlSum.
  repeat (split; [done|]). rewrite Htotal.
  assert (Hlen : forall st, length (getTasksByStatus s st)
                 = length (List.filter
                             (fun r => TaskStatus_eqb (row_status r) st) s)).
  { intros st. unfold getTasksByStatus, orderByCreatedAt. rewrite length_map.
    apply Permutation_length, sortByKey_perm. }
  rewrite !Hlen. pose proof (length_by_status s). lia.
Qed.

(** * Further properties of the validator *)

Lemma checkDependencies_None s taskId deps :
  checkDependencies s taskId deps = None <->
  forall d, In d deps ->
    isBlank d = false /\ d <> taskId /\ In d (map row_id s).
Proof.
  induction deps as [|d deps IH]; simpl; [by split|].
  destruct (String.eqb_spec d EmptyString) as [->|Hne]; simpl.
  { split; [done|]. intros H. by destruct (H EmptyString (or_introl eq_refl)). }
  destruct (isBlank d) eqn:Hblank.
  { split; [done|]. intros H. destruct (H d (or_introl eq_refl)). congruence. }
  destruct (String.eqb_spec d taskId) as [->|Hself].
  { split; [done|]. intros H. by destruct (H taskId (or_introl eq_refl)) as (_ & ? & _). }
  unfold getTask. destruct (selectById s d) as [r|] eqn:Hsel; simpl.
  - rewrite IH. apply selectById_Some in Hsel as [Hin Hid].
    split.
    + intros H d' [<-|Hd']; [|by apply H].
      split; [done|]. split; [done|]. rewrite <- Hid. by apply in_map.
    + intros H d' Hd'. apply H. by right.
  - split; [done|]. intros H.
    destruct (H d (or_introl eq_refl)) as (_ & _ & Hin).
    by apply selectById_None in Hsel.
Qed.

Lemma valid_wellFormed s taskInput :
  valid (validateTaskInput s taskInput) = true -> wellFormedInput s taskInput.
Proof.
  intros Hvalid. unfold validateTaskInput in Hvalid. unfold wellFormedInput.
  destruct (String.eqb_spec (in_id taskInput) EmptyString); [done|].
  destruct (String.eqb_spec (in_type taskInput) EmptyString); [done|].
  destruct (Z.ltb_spec (in_duration_ms taskInput) 0); [done|].
  destruct (getTask s (in_id taskInput)); [done|].
  destruct (checkDependencies _ _ _) eqn:Hdeps; [done|].
  repeat (split; [done|]). by apply checkDependencies_None.
Qed.

(** X8. An input that [validateTaskInput] accepts has a non-empty id and
    type and a non-negative duration, its id is not stored, and each of its
    dependencies is non-blank, differs from its id and is stored. *)
Theorem validateTaskInput_accepts_only_wellFormed
    (s : Store) (taskInput : TaskInput)
    (Hvalid : valid (validateTaskInput s taskInput) = true) :
  wellFormedInput s taskInput.
Proof. by apply valid_wellFormed. Qed.

Lemma validateTaskInput_accepts_only_wellFormed_witness :
  valid (validateTaskInput (db dependentSystem) (sampleInput "c" ["a"%string]))
  = true /\
  wellFormedInput (db dependentSystem) (sampleInput "c" ["a"%string]).
Proof.
  assert (Hvalid : valid (validateTaskInput (db dependentSystem)
                            (sampleInput "c" ["a"%string])) = true)
    by (vm_compute; reflexivity).
  split; [exact Hvalid|].
  exact (validateTaskInput_accepts_only_wellFormed _ _ Hvalid).
Defined.

Lemma rtc_last {A : Type} (R : relation A) x y :
  rtc R x y -> x = y \/ exists z, R z y.
Proof.
  induction 1 as [|x y z Hxy _ IH]; [by left|]. right.
  destruct IH as [<-|IH]; [by exists x | done].
Qed.

Lemma tc_last {A : Type} (R : relation A) x y :
  tc R x y -> exists z, R z y.
Proof. induction 1 as [x y Hxy|x z y _ _ IH]; [by exists x | done]. Qed.

(** In a store whose dependencies are all stored, no edge of the graph
    extended by a fresh task leads to that task. *)
Lemma no_edge_into_fresh s newId newDeps z :
  depsStored s -> getTask s newId = None ->
  (forall d, In d newDeps -> d <> newId) ->
  ~ dependsOnWith s newId newDeps z newId.
Proof.
  intros Hclosed Hfresh Hself [(r & Hr & _ & Hd)|[_ Hd]].
  - specialize (Hclosed r newId Hr Hd).
    apply in_map_iff in Hclosed as (r' & Hid & Hr').
    by apply (getTask_None _ _ Hfresh) in Hr'.
  - by apply Hself in Hd.
Qed.



(** * Further properties of the routes *)

Lemma detectCycleLoop_message fuel newTaskId graph deps :
  valid (detectCycleLoop fuel newTaskId graph deps) = false ->
  exists msg, v_error (detectCycleLoop fuel newTaskId graph deps) = Some msg.
Proof.
  induction deps as [|d deps IH]; simpl; [done|].
  destruct (hasCycle fuel d newTaskId graph ∅) as [[[] V]|]; simpl;
    [by eexists | done..].
Qed.

Lemma validateTaskInput_message s taskInput :
  valid (validateTaskInput s taskInput) = false ->
  exists msg, v_error (validateTaskInput s taskInput) = Some msg.
Proof.
  unfold validateTaskInput.
  destruct (String.eqb _ _); [by eexists|].
  destruct (String.eqb _ _); [by eexists|].
  destruct (_ <? _); [by eexists|].
  destruct (getTask _ _); [by eexists|].
  destruct (checkDependencies _ _ _); [by eexists|].
  destruct (valid (detectCycle _ _ _)) eqn:E; simpl; [done|].
  intros _. by apply detectCycleLoop_message.
Qed.

(** X10. [POST /tasks] never answers 409: an id that is stored is
    already refused by the validation, with 400.  A 400 carries a message
    and leaves the table as it is.  A 201 appends one row, and the task it
    reports has the id, type, duration and dependencies of the input, the
    submission time as [created_at], and is what [GET /tasks/:id] reads
    back, but for the retry count, which the answer lacks and the store
    sets to 0. *)
Theorem postTasks_answers (s : Store) (taskInput : TaskInput) (now : Z) :
  (forall msg, snd (postTasks s taskInput now) <> Conflict msg) /\
  (forall e, snd (postTasks s taskInput now) = BadRequest e ->
     fst (postTasks s taskInput now) = s /\
     valid (validateTaskInput s taskInput) = false /\
     exists msg, e = Some msg) /\
  (forall task, snd (postTasks s taskInput now) = Created task ->
     valid (validateTaskInput s taskInput) = true /\
     fst (postTasks s taskInput now) = s ++ [taskToRow task] /\
     id task = in_id taskInput /\ type task = in_type taskInput /\
     duration_ms task = in_duration_ms taskInput /\
     dependencies task = depsOrEmpty taskInput /\
     created_at task = now /\
     getTask (fst (postTasks s taskInput now)) (id task)
     = Some {| id := id task; type := type task;
               duration_ms := duration_ms task;
               dependencies := dependencies task; status := status task;
               created_at := created_at task; started_at := None;
               completed_at := None; error := None;
               retry_count := Some 0 |}).
Proof.
  unfold postTasks.
  destruct (valid (validateTaskInput s taskInput)) eqn:Hvalid; simpl.
  - assert (Hfresh : selectById s (in_id taskInput) = None).
    { unfold validateTaskInput in Hvalid.
      destruct (String.eqb _ _); [done|].
      destruct (String.eqb _ _); [done|].
      destruct (_ <? _); [done|].
      unfold getTask in Hvalid.
      by destruct (selectById s (in_id taskInput)). }
    unfold insertTask. cbn [id createTask]. rewrite Hfresh. simpl.
    split; [done|]. split; [done|].
    intros task [= <-]. split; [done|]. split; [done|]. simpl.
    repeat (split; [done|]).
    unfold getTask. rewrite selectById_app, Hfresh. simpl.
    by rewrite String.eqb_refl.
  - split; [done|]. split; [|done].
    intros e [= <-]. split; [done|]. split; [done|].
    by apply validateTaskInput_message.
Qed.

(** * Further properties of the running system *)

(** ** Rows are kept, their fixed columns too, versions only grow *)

Lemma evolves_refl r : evolves r r.
Proof. split; [done | lia]. Qed.

Lemma evolves_trans r1 r2 r3 : evolves r1 r2 -> evolves r2 r3 -> evolves r1 r3.
Proof. intros [H1 V1] [H2 V2]. split; [congruence | lia]. Qed.

Lemma applyUpdate_evolves st u r : evolves r (applyUpdate st u r).
Proof. split; [done | simpl; lia]. Qed.

Lemma Forall2_evolves_refl s : Forall2 evolves s s.
Proof. induction s; constructor; [apply evolves_refl | done]. Qed.

Lemma Forall2_evolves_trans s1 s2 s3 :
  Forall2 evolves s1 s2 -> Forall2 evolves s2 s3 -> Forall2 evolves s1 s3.
Proof.
  intros H. revert s3. induction H as [|r1 r2 s1 s2 Hr _ IH]; intros s3 H23.
  - by inversion H23.
  - inversion H23 as [|? r3 ? s3' Hr' H23']; subst.
    constructor; [by eapply evolves_trans | by apply IH].
Qed.

Lemma updateTaskStatus_evolves s taskId st v u :
  Forall2 evolves s (fst (updateTaskStatus s taskId st v u)).
Proof.
  unfold updateTaskStatus. simpl. induction s as [|r s IH]; simpl;
    constructor; [|done].
  destruct (whereIdVersion taskId v r);
    [apply applyUpdate_evolves | apply evolves_refl].
Qed.

Lemma recoverOrphanedTasks_evolves s :
  Forall2 evolves s (recoverOrphanedTasks s).
Proof.
  unfold recoverOrphanedTasks.
  destruct (0 <? _)%nat; [|apply Forall2_evolves_refl].
  generalize (getOrphanedTasks s). intros tasks. revert s.
  induction tasks as [|t tasks IH]; intros s; simpl;
    [apply Forall2_evolves_refl|].
  eapply Forall2_evolves_trans; [|apply IH].
  unfold recoverOne. destruct (getTaskWithVersion s (id t)) as [[? v]|];
    [apply updateTaskStatus_evolves | apply Forall2_evolves_refl].
Qed.

Lemma executeTask_evolves sys task now :
  Forall2 evolves (db sys) (db (executeTask sys task now)).
Proof.
  unfold executeTask.
  destruct (getTaskWithVersion (db sys) (id task)) as [[? v]|];
    [|apply Forall2_evolves_refl].
  pose proof (updateTaskStatus_evolves (db sys) (id task) RUNNING v
                (claimUpdates now)) as H.
  unfold claimUpdates in H.
  destruct (updateTaskStatus _ _ _ _ _) as [s' claimed]. simpl in H.
  by destruct claimed.
Qed.

Lemma scheduleNextTasks_evolves sys clock :
  Forall2 evolves (db sys) (db (scheduleNextTasks sys clock)).
Proof.
  unfold scheduleNextTasks.
  destruct (negb (isRunning sys)); [apply Forall2_evolves_refl|].
  destruct (_ <=? 0); [apply Forall2_evolves_refl|].
  destruct (_ =? _)%nat; [apply Forall2_evolves_refl|].
  generalize (tasksToExecute (db sys)
                (maxConcurrentTasks sys - Z.of_nat (size (runningTasks sys)))).
  intros tasks. revert sys.
  induction tasks as [|t tasks IH]; intros sys; simpl;
    [apply Forall2_evolves_refl|].
  eapply Forall2_evolves_trans; [apply executeTask_evolves | apply IH].
Qed.

Lemma terminalWrite_evolves s task outcome now :
  Forall2 evolves s (terminalWrite s task outcome now).
Proof.
  unfold terminalWrite.
  destruct (getTaskWithVersion s (id task)) as [[? v]|];
    [|apply Forall2_evolves_refl].
  destruct outcome; apply updateTaskStatus_evolves.
Qed.

Lemma start_evolves sys clock :
  Forall2 evolves (db sys) (db (start sys clock)).
Proof.
  unfold start. destruct (isRunning sys); [apply Forall2_evolves_refl|].
  eapply Forall2_evolves_trans; [|apply scheduleNextTasks_evolves].
  apply recoverOrphanedTasks_evolves.
Qed.

Lemma grows_refl s : grows s s.
Proof.
  exists s, []. split; [by rewrite app_nil_r | apply Forall2_evolves_refl].
Qed.

Lemma grows_evolves s s' : Forall2 evolves s s' -> grows s s'.
Proof. intros H. exists s', []. split; [by rewrite app_nil_r | done]. Qed.

Lemma grows_trans s1 s2 s3 : grows s1 s2 -> grows s2 s3 -> grows s1 s3.
Proof.
  intros (a & ta & -> & Ha) (b & tb & -> & Hb).
  apply Forall2_app_inv_l in Hb as (b1 & b2 & Hb1 & Hb2 & ->).
  exists b1, (b2 ++ tb). split; [by rewrite <- app_assoc|].
  by apply (Forall2_evolves_trans _ a).
Qed.

Lemma step_grows sys ev : grows (db sys) (db (step sys ev)).
Proof.
  destruct ev as [taskInput now|clock|i outcome now| |clock]; simpl.
  - destruct (submitTask_cases (db sys) taskInput now) as [->|[_ ->]];
      [apply grows_refl|].
    eexists _, _. split; [done | apply Forall2_evolves_refl].
  - apply grows_evolves, scheduleNextTasks_evolves.
  - destruct (nth_error (sleeping sys) i); [|apply grows_refl].
    apply grows_evolves, terminalWrite_evolves.
  - unfold stop. destruct (negb (isRunning sys)); apply grows_refl.
  - apply grows_evolves. apply (start_evolves (newExecutor _ _)).
Qed.

Lemma run_grows evs : forall sys, grows (db sys) (db (run sys evs)).
Proof.
  unfold run. induction evs as [|ev evs IH]; intros sys; simpl;
    [apply grows_refl|].
  eapply grows_trans; [apply step_grows | apply IH].
Qed.

Lemma grows_selectById s s' x r :
  grows s s' -> selectById s x = Some r ->
  exists r', selectById s' x = Some r' /\ evolves r r'.
Proof.
  intros (s1 & tail & -> & H) Hsel. unfold selectById in *.
  induction H as [|r0 r1 s s1 Hr _ IH]; simpl in *; [done|].
  assert (Hid : row_id r1 = row_id r0).
  { destruct Hr as [Hfix _]. unfold fixedColumns in Hfix. congruence. }
  rewrite Hid. destruct (String.eqb (row_id r0) x).
  - injection Hsel as <-. by exists r1.
  - by apply IH.
Qed.

(** X11. Whatever events follow, a stored task stays stored, its id,
    type, duration, dependencies and creation time stay as they are, and
    its version does not decrease. *)
Theorem stored_task_kept
    (sys : System) (evs : list Event) (taskId : string) (t : Task) (v : Z)
    (Hget : getTaskWithVersion (db sys) taskId = Some (t, v)) :
  exists t' v',
    getTaskWithVersion (db (run sys evs)) taskId = Some (t', v') /\
    id t' = id t /\ type t' = type t /\ duration_ms t' = duration_ms t /\
    dependencies t' = dependencies t /\ created_at t' = created_at t /\
    v <= v'.
Proof.
  unfold getTaskWithVersion in *.
  destruct (selectById (db sys) taskId) as [r|] eqn:Hsel; [|done].
  injection Hget as <- <-.
  destruct (grows_selectById _ _ _ _ (run_grows evs sys) Hsel)
    as (r' & -> & [Hfix Hv]).
  exists (rowToTask r'), (row_version r'). split; [done|].
  unfold fixedColumns in Hfix. injection Hfix as H1 H2 H3 H4 H5.
  simpl. by rewrite H1, H2, H3, H4, H5.
Qed.

Lemma stored_task_kept_witness :
  getTaskWithVersion (db dependentSystem) "a"
  = Some (rowToTask completedRowA, 2) /\
  exists t' v',
    getTaskWithVersion (db (run dependentSystem laterEvents)) "a"
    = Some (t', v') /\
    id t' = "a"%string /\ type t' = "COMPUTE"%string /\ duration_ms t' = 200 /\
    dependencies t' = [] /\ created_at t' = 1 /\ 2 <= v'.
Proof.
  assert (Hget : getTaskWithVersion (db dependentSystem) "a"
                 = Some (rowToTask completedRowA, 2))
    by (vm_compute; reflexivity).
  split; [exact Hget|].
  exact (stored_task_kept dependentSystem laterEvents "a" _ 2 Hget).
Defined.

(** ** The dependency graph stays well formed *)

Lemma graphOf_evolves s s' : Forall2 evolves s s' -> graphOf s' = graphOf s.
Proof.
  unfold graphOf. induction 1 as [|r r' s s' [Hfix _] _ IH]; simpl; [done|].
  unfold fixedColumns in Hfix. injection Hfix as H1 _ _ H4 _.
  by rewrite H1, H4, IH.
Qed.

Lemma graphOf_ids s : map row_id s = map fst (graphOf s).
Proof. unfold graphOf. rewrite map_map. done. Qed.

Lemma dependsOn_graphOf s x y :
  dependsOn s x y <-> exists deps, In (x, deps) (graphOf s) /\ In y deps.
Proof.
  unfold dependsOn, graphOf. split.
  - intros (r & Hr & <- & Hy). exists (row_dependencies r). split; [|done].
    apply in_map_iff. by exists r.
  - intros (deps & Hin & Hy). apply in_map_iff in Hin as (r & [= <- <-] & Hr).
    by exists r.
Qed.

Lemma depsStored_graphOf s :
  depsStored s <->
  forall x deps d, In (x, deps) (graphOf s) -> In d deps ->
    In d (map fst (graphOf s)).
Proof.
  unfold depsStored. rewrite <- graphOf_ids. unfold graphOf. split.
  - intros H x deps d Hin Hd.
    apply in_map_iff in Hin as (r & [= <- <-] & Hr). by apply (H r).
  - intros H r d Hr Hd. apply (H (row_id r) (row_dependencies r)); [|done].
    apply in_map_iff. by exists r.
Qed.

Lemma tc_mono {A : Type} (R R' : relation A) x y :
  (forall a b, R a b -> R' a b) -> tc R x y -> tc R' x y.
Proof.
  intros Hsub. induction 1 as [x y Hxy|x z y Hxz _ IH];
    [apply tc_once | eapply tc_l]; eauto.
Qed.

Lemma graphOk_graphOf s s' : graphOf s' = graphOf s -> graphOk s -> graphOk s'.
Proof.
  intros Heq (Hwf & Hclosed & Hacyc). split; [|split].
  - unfold store_wf in *. by rewrite graphOf_ids, Heq, <- graphOf_ids.
  - apply depsStored_graphOf. rewrite Heq. by apply depsStored_graphOf.
  - intros x Hcyc. apply (Hacyc x).
    eapply tc_mono; [|exact Hcyc].
    intros a b Hab. apply dependsOn_graphOf.
    rewrite <- Heq. by apply dependsOn_graphOf.
Qed.

Lemma dependsOn_app_new s task x y :
  dependsOn (s ++ [taskToRow task]) x y
  <-> dependsOnWith s (id task) (dependencies task) x y.
Proof.
  unfold dependsOnWith, dependsOn. split.
  - intros (r & Hr & Hid & Hy). apply in_app_or in Hr as [Hr|[<-|[]]].
    + left. by exists r.
    + right. by split.
  - intros [(r & Hr & Hid & Hy)|[-> Hy]].
    + exists r. split; [apply in_or_app; by left | done].
    + exists (taskToRow task). split; [|done].
      apply in_or_app. right. by left.
Qed.

Lemma graphOk_submitTask s taskInput now :
  graphOk s -> graphOk (submitTask s taskInput now).
Proof.
  intros (Hwf & Hclosed & Hacyc).
  pose proof (store_wf_submitTask s taskInput now Hwf) as Hwf'.
  unfold submitTask in *.
  destruct (valid (validateTaskInput s taskInput)) eqn:Hvalid; [|done].
  apply valid_wellFormed in Hvalid as (_ & _ & _ & Hfresh & Hdeps).
  unfold insertTask in *. cbn [id createTask] in *.
  assert (Hsel : selectById s (in_id taskInput) = None)
    by (unfold getTask in Hfresh; by destruct (selectById s _)).
  rewrite Hsel in *. cbn [fst] in *.
  set (task := createTask s taskInput now) in *.
  split; [done|]. split.
  - intros r d Hr Hd. rewrite map_app. apply in_or_app.
    apply in_app_or in Hr as [Hr|[<-|[]]].
    + left. by apply (Hclosed r).
    + left. by apply Hdeps.
  - intros x Hcyc.
    assert (Hinto : forall z,
              ~ dependsOnWith s (id task) (dependencies task) z (id task)).
    { intros z. apply no_edge_into_fresh; [done..|].
      intros d Hd. by destruct (Hdeps d Hd) as (_ & ? & _). }
    assert (Hoff : forall a b, a <> id task ->
              dependsOn (s ++ [taskToRow task]) a b -> dependsOn s a b).
    { intros a b Ha Hab. apply dependsOn_app_new in Hab as [Hab|[? _]]; done. }
    destruct (tc_split _ (dependsOn s) (id task) Hoff _ _ Hcyc)
      as [Hold|[Hpre Hpost]]; [by apply (Hacyc x)|].
    apply rtc_last in Hpre as [->|[z Hz]].
    + apply tc_last in Hpost as [z Hz].
      apply dependsOn_app_new in Hz. by apply (Hinto z).
    + apply (Hinto z). by left.
Qed.

Lemma graphOk_step sys ev : graphOk (db sys) -> graphOk (db (step sys ev)).
Proof.
  intros Hok. destruct ev as [taskInput now|clock|i outcome now| |clock].
  - by apply graphOk_submitTask.
  - eapply graphOk_graphOf; [|exact Hok].
    apply graphOf_evolves, scheduleNextTasks_evolves.
  - simpl. destruct (nth_error (sleeping sys) i); [|done].
    eapply graphOk_graphOf; [|exact Hok].
    apply graphOf_evolves, terminalWrite_evolves.
  - simpl. unfold stop. by destruct (negb (isRunning sys)).
  - eapply graphOk_graphOf; [|exact Hok].
    apply graphOf_evolves. apply (start_evolves (newExecutor _ _)).
Qed.

(** X12. If the table the process starts on has unique ids, only stored
    dependencies and no dependency cycle, then so has the table after any
    sequence of events: submissions cannot introduce a duplicate id, a
    dangling dependency or a cycle, and nothing else touches the graph. *)
Theorem dependency_graph_stays_wellFormed
    (s : Store) (maxc : Z) (clock : string -> Z) (evs : list Event)
    (Hok : graphOk s) :
  graphOk (db (run (main s maxc clock) evs)).
Proof.
  assert (Hmain : graphOk (db (main s maxc clock))).
  { eapply graphOk_graphOf; [|exact Hok].
    apply graphOf_evolves. apply (start_evolves (newExecutor _ _)). }
  revert Hmain. generalize (main s maxc clock). unfold run.
  induction evs as [|ev evs IH]; intros sys Hsys; simpl; [done|].
  apply IH. by apply graphOk_step.
Qed.

Lemma dependency_graph_stays_wellFormed_witness :
  graphOk [] /\ graphOk (db dependentSystem).
Proof.
  assert (Hok : graphOk []).
  { split; [constructor|]. split; [by intros ? ? []|].
    intros x Hcyc. apply tc_last in Hcyc as (z & r & [] & _). }
  split; [exact Hok|].
  exact (dependency_graph_stays_wellFormed [] 3 (fun _ => 0) sampleEvents Hok).
Defined.

(** ** What a scheduler pass does *)

Lemma scheduleNextTasks_fold sys clock :
  scheduleNextTasks sys clock
  = fold_left (fun acc task => executeTask acc task (clock (id task)))
              (claimedBy sys) sys.
Proof.
  unfold scheduleNextTasks, claimedBy. fold (freeSlots sys).
  destruct (isRunning sys); simpl; [|done].
  destruct (Z.leb_spec (freeSlots sys) 0) as [Hle|Hfree].
  { by replace (Z.to_nat (freeSlots sys)) with 0%nat by lia. }
  destruct (getReadyTasks (db sys)) as [|t ready] eqn:Hready.
  { simpl. by rewrite firstn_nil. }
  cbn [length Nat.eqb]. by rewrite tasksToExecute_firstn, Hready.
Qed.

Lemma claimedBy_ready sys t : In t (claimedBy sys) -> In t (getReadyTasks (db sys)).
Proof.
  unfold claimedBy. destruct (isRunning sys); [|done]. intros H.
  rewrite <- (firstn_skipn (Z.to_nat (freeSlots sys))).
  apply in_or_app. by left.
Qed.

Lemma getReadyTasks_ids_NoDup s :
  store_wf s -> List.NoDup (map id (getReadyTasks s)).
Proof.
  intros Hwf.
  pose proof (tasksToExecute_NoDup s (Z.of_nat (length (getReadyTasks s))) Hwf)
    as H.
  rewrite tasksToExecute_firstn, Nat2Z.id, firstn_all in H. done.
Qed.

Lemma claimedBy_NoDup sys :
  store_wf (db sys) -> List.NoDup (map id (claimedBy sys)).
Proof.
  intros Hwf. unfold claimedBy. destruct (isRunning sys); [|constructor].
  pose proof (getReadyTasks_ids_NoDup _ Hwf) as H.
  rewrite <- (firstn_skipn (Z.to_nat (freeSlots sys)) (getReadyTasks _)) in H.
  rewrite map_app in H. by apply NoDup_app_remove_r in H.
Qed.

Lemma claimedBy_stored sys t :
  store_wf (db sys) -> In t (claimedBy sys) ->
  exists r, selectById (db sys) (id t) = Some r /\ t = rowToTask r /\
            (row_status r = QUEUED \/ row_status r = WAITING) /\
            forall d, In d (row_dependencies r) -> completedIn (db sys) d.
Proof.
  intros Hwf Ht. apply claimedBy_ready, getReadyTasks_char in Ht
    as (r & Hr & -> & Hst & Hdeps).
  exists r. split; [by apply selectById_wf | done].
Qed.

Lemma executeTask_stored sys task now :
  store_wf (db sys) ->
  is_Some (selectById (db sys) (id task)) ->
  executeTask sys task now
  = {| db := updateById (id task) (applyUpdate RUNNING (claimUpdates now))
               (db sys);
       maxConcurrentTasks := maxConcurrentTasks sys;
       runningTasks := {[id task]} ∪ runningTasks sys;
       isRunning := isRunning sys;
       schedulerInterval := schedulerInterval sys;
       sleeping := sleeping sys ++ [task] |}.
Proof.
  intros Hwf Hsome. unfold executeTask.
  pose proof (versioned_write (db sys) (id task) RUNNING (claimUpdates now) Hwf)
    as H.
  rewrite bool_decide_eq_true_2 in H by done.
  unfold getTaskWithVersion, claimUpdates in *.
  destruct Hsome as [r Hr]. rewrite Hr in *. cbn [option_map] in *.
  rewrite H. reflexivity.
Qed.

Lemma fold_executeTask_row (clock : string -> Z) tasks :
  forall sys,
    store_wf (db sys) ->
    List.NoDup (map id tasks) ->
    (forall t, In t tasks -> is_Some (selectById (db sys) (id t))) ->
    forall t r, In t tasks -> selectById (db sys) (id t) = Some r ->
      selectById
        (db (fold_left (fun acc task => executeTask acc task (clock (id task)))
                       tasks sys)) (id t)
      = Some (applyUpdate RUNNING (claimUpdates (clock (id t))) r).
Proof.
  induction tasks as [|t0 tasks IH]; intros sys Hwf Hnd Hin t r Ht Hsel;
    [done|].
  simpl. apply List.NoDup_cons_iff in Hnd as [Hnotin Hnd].
  rewrite (executeTask_stored sys t0 (clock (id t0)) Hwf)
    by (apply Hin; by left).
  set (sys1 := {| db := updateById (id t0) _ (db sys) |}).
  assert (Hwf1 : store_wf (db sys1))
    by (apply store_wf_updateById; [apply applyUpdate_id | done]).
  assert (Hsel1 : forall x,
            selectById (db sys1) x
            = if String.eqb (id t0) x
              then option_map (applyUpdate RUNNING (claimUpdates (clock (id t0))))
                              (selectById (db sys) x)
              else selectById (db sys) x).
  { intros x. simpl. by rewrite selectById_updateById by apply applyUpdate_id. }
  assert (Hin1 : forall t', In t' tasks ->
            is_Some (selectById (db sys1) (id t'))).
  { intros t' Ht'. rewrite Hsel1.
    destruct (Hin t' (or_intror Ht')) as [r' ->].
    by destruct (String.eqb _ _). }
  destruct (in_dec string_dec (id t) (map id tasks)) as [Hrest|Hrest].
  - apply in_map_iff in Hrest as (t' & Heq & Ht').
    rewrite <- Heq. apply (IH sys1 Hwf1 Hnd Hin1 t' r Ht').
    rewrite Hsel1, Heq.
    destruct (String.eqb_spec (id t0) (id t)) as [E|_]; [|done].
    exfalso. apply Hnotin. rewrite E, <- Heq. by apply in_map.
  - destruct Ht as [->|Ht]; [|exfalso; apply Hrest; by apply in_map].
    destruct (fold_executeTask clock tasks sys1 Hwf1 Hnd Hin1)
      as (_ & _ & _ & _ & Hout & _).
    rewrite Hout by done. by rewrite Hsel1, String.eqb_refl, Hsel.
Qed.

(** X13. A pass of a running scheduler claims the first free-slot-count
    ready tasks, all of them and nothing else: each is appended to the
    suspended calls and added to [runningTasks], its row becomes RUNNING
    with the claim time as [started_at] and the version raised by one, and
    every other row is left as it is.  So a pass claims
    min(free slots, ready tasks) tasks; a stopped scheduler claims none. *)
Theorem scheduleNextTasks_claims
    (sys : System) (clock : string -> Z) (Hwf : store_wf (db sys)) :
  let sys' := scheduleNextTasks sys clock in
  sleeping sys' = sleeping sys ++ claimedBy sys /\
  runningTasks sys' = list_to_set (map id (claimedBy sys)) ∪ runningTasks sys /\
  (isRunning sys = true ->
     length (claimedBy sys)
     = Nat.min (Z.to_nat (freeSlots sys)) (length (getReadyTasks (db sys)))) /\
  (isRunning sys = false -> sys' = sys) /\
  (forall t, In t (claimedBy sys) ->
     exists r r',
       selectById (db sys) (id t) = Some r /\
       selectById (db sys') (id t) = Some r' /\
       written RUNNING (claimUpdates (clock (id t))) r r') /\
  (forall x, ~ In x (map id (claimedBy sys)) ->
     selectById (db sys') x = selectById (db sys) x).
Proof.
  intros sys'. subst sys'. rewrite scheduleNextTasks_fold.
  assert (Hstored : forall t, In t (claimedBy sys) ->
            is_Some (selectById (db sys) (id t))).
  { intros t Ht. destruct (claimedBy_stored sys t Hwf Ht) as (r & -> & _).
    by eexists. }
  pose proof (claimedBy_NoDup sys Hwf) as Hnd.
  destruct (fold_executeTask clock (claimedBy sys) sys Hwf Hnd Hstored)
    as (_ & Hsl & Hrun & _ & Hout & _).
  split; [done|]. split; [done|]. split; [|split; [|split; [|done]]].
  - intros Hr. unfold claimedBy. rewrite Hr. apply length_firstn.
  - intros Hr. unfold claimedBy. by rewrite Hr.
  - intros t Ht. destruct (Hstored t Ht) as [r Hr].
    exists r, (applyUpdate RUNNING (claimUpdates (clock (id t))) r).
    split; [done|]. split; [|apply applyUpdate_written].
    by apply fold_executeTask_row.
Qed.

Lemma scheduleNextTasks_claims_witness :
  store_wf tieStore /\
  map id (sleeping (scheduleNextTasks
                      {| db := tieStore; maxConcurrentTasks := 1;
                         runningTasks := ∅; isRunning := true;
                         schedulerInterval := true; sleeping := [] |}
                      (fun _ => 9)))
  = ["b"%string].
Proof.
  assert (Hwf : store_wf tieStore)
    by (apply store_wf_check; vm_compute; reflexivity).
  split; [exact Hwf|].
  rewrite (proj1 (scheduleNextTasks_claims
                    {| db := tieStore; maxConcurrentTasks := 1;
                       runningTasks := ∅; isRunning := true;
                       schedulerInterval := true; sleeping := [] |}
                    (fun _ => 9) Hwf)).
  vm_compute. reflexivity.
Defined.

(** ** Dependencies complete first *)

Lemma completedIn_kept s s' d :
  store_wf s ->
  (forall r, selectById s d = Some r -> row_status r = COMPLETED ->
     selectById s' d = Some r) ->
  completedIn s d -> completedIn s' d.
Proof.
  intros Hwf Hkeep (r & Hr & <- & Hst).
  pose proof (Hkeep r (selectById_wf _ _ Hwf Hr) Hst) as H.
  apply selectById_Some in H as [H _]. by exists r.
Qed.

Lemma started_not_ready st :
  started st -> st <> QUEUED /\ st <> WAITING.
Proof. intros [->|[->| ->]]; done. Qed.

Lemma startedAfterDeps_scheduleNextTasks sys clock :
  store_wf (db sys) -> startedAfterDeps (db sys) ->
  startedAfterDeps (db (scheduleNextTasks sys clock)).
Proof.
  intros Hwf HJ.
  assert (Hkeep : forall d, completedIn (db sys) d ->
            completedIn (db (scheduleNextTasks sys clock)) d).
  { intros d. apply completedIn_kept; [done|]. intros r Hr Hst.
    apply scheduleNextTasks_keeps_row; [done..| |]; by rewrite Hst. }
  assert (Hwf' : store_wf (db (scheduleNextTasks sys clock))).
  { destruct (scheduleNextTasks_spec sys clock Hwf)
      as (? & _ & _ & _ & Hids & _). by apply (store_wf_ids (db sys)). }
  assert (Hstored : forall t, In t (claimedBy sys) ->
            is_Some (selectById (db sys) (id t))).
  { intros t Ht. destruct (claimedBy_stored sys t Hwf Ht) as (r & -> & _).
    by eexists. }
  pose proof (claimedBy_NoDup sys Hwf) as Hnd.
  intros r' d Hr' Hst' Hd. apply (selectById_wf _ _ Hwf') in Hr'.
  rewrite scheduleNextTasks_fold in Hr'.
  destruct (in_dec string_dec (row_id r') (map id (claimedBy sys)))
    as [Hin|Hnin].
  - apply in_map_iff in Hin as (t & Hid & Ht).
    destruct (claimedBy_stored sys t Hwf Ht) as (r & Hr & _ & _ & Hdeps).
    rewrite <- Hid in Hr'.
    rewrite (fold_executeTask_row clock _ sys Hwf Hnd Hstored t r Ht Hr) in Hr'.
    injection Hr' as <-. apply Hkeep. by apply Hdeps.
  - destruct (fold_executeTask clock (claimedBy sys) sys Hwf Hnd Hstored)
      as (_ & _ & _ & _ & Hout & _).
    rewrite Hout in Hr' by done. apply selectById_Some in Hr' as [Hr' _].
    apply Hkeep. by apply (HJ r').
Qed.

Lemma startedAfterDeps_recover s :
  store_wf s -> startedAfterDeps s ->
  startedAfterDeps (recoverOrphanedTasks s).
Proof.
  intros Hwf HJ r' d Hr' Hst' Hd.
  assert (Hkeep : completedIn s d -> completedIn (recoverOrphanedTasks s) d).
  { apply completedIn_kept; [done|]. intros r Hr Hst.
    apply recoverOrphanedTasks_keeps_row; [done..|]. by rewrite Hst. }
  rewrite recoverOrphanedTasks_map in Hr' by done.
  apply in_map_iff in Hr' as (r & <- & Hr).
  destruct (TaskStatus_eqb (row_status r) RUNNING).
  - simpl in Hst'. by destruct Hst' as [?|[?|?]].
  - apply Hkeep. by apply (HJ r).
Qed.

Lemma startedAfterDeps_main s maxc clock :
  store_wf s -> startedAfterDeps s ->
  startedAfterDeps (db (main s maxc clock)).
Proof.
  intros Hwf HJ. rewrite main_unfold.
  apply startedAfterDeps_scheduleNextTasks; cbn [db];
    [by apply store_wf_recover | by apply startedAfterDeps_recover].
Qed.

Lemma createTask_not_started s taskInput now :
  ~ started (status (createTask s taskInput now)).
Proof.
  simpl. destruct (length _ =? 0)%nat; [by intros [?|[?|?]]|].
  destruct (allDepsIn _ _); by intros [?|[?|?]].
Qed.

Lemma startedAfterDeps_step sys ev :
  consistent sys -> startedAfterDeps (db sys) ->
  startedAfterDeps (db (step sys ev)).
Proof.
  intros Hc HJ. pose proof Hc as (Hwf & _ & _ & Hsl & _).
  assert (Hkeep : forall d, completedIn (db sys) d ->
            completedIn (db (step sys ev)) d).
  { intros d. apply completedIn_kept; [done|]. intros r Hr Hst.
    apply step_keeps_terminal_row; [done..|]. left. done. }
  destruct ev as [taskInput now|clock|i outcome now| |clock].
  - intros r' d Hr' Hst' Hd. apply Hkeep. simpl in Hr'.
    destruct (submitTask_cases (db sys) taskInput now) as [Hs|[_ Hs]];
      rewrite Hs in Hr'; [by apply (HJ r')|].
    apply in_app_or in Hr' as [Hr'|[<-|[]]]; [by apply (HJ r')|].
    by apply createTask_not_started in Hst'.
  - by apply startedAfterDeps_scheduleNextTasks.
  - destruct (nth_error (sleeping sys) i) as [task|] eqn:Hnth;
      [|simpl; by rewrite Hnth].
    intros r' d Hr' Hst' Hd. apply Hkeep. simpl in Hr'. rewrite Hnth in Hr'.
    cbn [db resumeTask] in Hr'.
    destruct (terminalWrite_updateById (db sys) task outcome now Hwf)
      as (st & u & Heq & _).
    rewrite Heq in Hr'. unfold updateById in Hr'.
    apply in_map_iff in Hr' as (r0 & <- & Hr0).
    destruct (String.eqb_spec (row_id r0) (id task)) as [Hid|Hid].
    + apply (HJ r0); [done| |done]. left.
      destruct (Hsl task) as (rt & Hrt & Hst); [by eapply nth_error_In|].
      pose proof (selectById_wf _ _ Hwf Hr0) as H0. rewrite Hid, Hrt in H0.
      by injection H0 as <-.
    + by apply (HJ r0).
  - simpl. unfold stop. by destruct (negb (isRunning sys)).
  - by apply startedAfterDeps_main.
Qed.

(** X14. No task runs before its dependencies have completed: if, in
    the table the process starts on, every task that is RUNNING, COMPLETED
    or FAILED has only COMPLETED dependencies, the same holds after any
    sequence of events. *)
Theorem dependencies_complete_first
    (s : Store) (maxc : Z) (clock : string -> Z) (evs : list Event)
    (Hwf : store_wf s) (Hstart : startedAfterDeps s) :
  startedAfterDeps (db (run (main s maxc clock) evs)).
Proof.
  pose proof (consistent_main s maxc clock Hwf) as Hc.
  pose proof (startedAfterDeps_main s maxc clock Hwf Hstart) as HJ.
  revert Hc HJ. generalize (main s maxc clock). unfold run.
  induction evs as [|ev evs IH]; intros sys Hc HJ; simpl; [done|].
  apply IH; [by apply consistent_step | by apply startedAfterDeps_step].
Qed.

Lemma dependencies_complete_first_witness :
  store_wf [] /\ startedAfterDeps [] /\
  startedAfterDeps
    (db (run (main [] 3 (fun _ => 0)) (sampleEvents ++ laterEvents))).
Proof.
  assert (Hwf : store_wf []) by constructor.
  assert (HJ : startedAfterDeps []) by (by intros ? ? []).
  split; [exact Hwf|]. split; [exact HJ|].
  exact (dependencies_complete_first [] 3 (fun _ => 0)
           (sampleEvents ++ laterEvents) Hwf HJ).
Defined.

(** ** Suspended calls *)

(** X15. No task is executed twice at a time: in every reachable state
    the suspended calls are for pairwise distinct tasks, each of them is
    read as RUNNING, and the next pass claims none of them again. *)
Theorem no_double_execution
    (maxc : Z) (sys : System) (Hreach : reachable maxc sys) :
  List.NoDup (map id (sleeping sys)) /\
  (forall t, In t (sleeping sys) ->
     exists t', getTask (db sys) (id t) = Some t' /\ status t' = RUNNING) /\
  (forall t, In t (sleeping sys) -> ~ In (id t) (map id (claimedBy sys))).
Proof.
  apply reachable_consistent in Hreach as (Hwf & Hnd & _ & Hsl & _).
  split; [done|]. split.
  - intros t Ht. destruct (Hsl t Ht) as (r & Hr & Hst).
    exists (rowToTask r). unfold getTask. by rewrite Hr.
  - intros t Ht Hin. apply in_map_iff in Hin as (t' & Heq & Ht').
    destruct (Hsl t Ht) as (r & Hr & Hst).
    destruct (claimedBy_stored sys t' Hwf Ht') as (r' & Hr' & _ & Hst' & _).
    rewrite Heq, Hr in Hr'. injection Hr' as <-.
    rewrite Hst in Hst'. by destruct Hst'.
Qed.

Lemma no_double_execution_witness :
  reachable 3 (run dependentSystem [EvTick (fun _ => 7)]) /\
  List.NoDup (map id (sleeping (run dependentSystem [EvTick (fun _ => 7)]))).
Proof.
  assert (Hreach : reachable 3 (run dependentSystem [EvTick (fun _ => 7)]))
    by (apply reachable_run, reachable_run, reach_main; constructor).
  split; [exact Hreach|].
  exact (proj1 (no_double_execution 3 _ Hreach)).
Defined.

(** X16. When a suspended call resumes in a reachable state, its task,
    RUNNING until then, becomes COMPLETED if the runner resolved and FAILED
    with the runner's message if it rejected; [completed_at] is the time of
    the write, [started_at] stays, the version goes up by one, and the id
    leaves [runningTasks].  A resolved task keeps whatever error text it
    had, so a task that was recovered and then completes still shows the
    interruption message.  No other row changes. *)
Theorem settle_writes_outcome
    (maxc : Z) (sys : System) (i : nat) (task : Task) (outcome : Outcome)
    (now : Z)
    (Hreach : reachable maxc sys)
    (Hnth : nth_error (sleeping sys) i = Some task) :
  let sys' := step sys (EvSettle i outcome now) in
  exists r r',
    selectById (db sys) (id task) = Some r /\ row_status r = RUNNING /\
    selectById (db sys') (id task) = Some r' /\
    row_status r'
    = match outcome with Resolved => COMPLETED | Rejected _ => FAILED end /\
    row_completed_at r' = Some now /\
    row_error r'
    = match outcome with
      | Resolved => row_error r
      | Rejected msg => Some msg
      end /\
    row_started_at r' = row_started_at r /\
    row_version r' = row_version r + 1 /\
    (id task ∉ runningTasks sys') /\
    ~ In (id task) (map id (sleeping sys')) /\
    (forall x, x <> id task -> selectById (db sys') x = selectById (db sys) x).
Proof.
  apply reachable_consistent in Hreach as (Hwf & Hnd & _ & Hsl & _).
  destruct (Hsl task) as (r & Hr & Hst); [by eapply nth_error_In|].
  simpl. rewrite Hnth. cbn [db runningTasks sleeping resumeTask].
  destruct (removeAt_split _ _ _ Hnth) as (l1 & l2 & Hl & ->).
  rewrite Hl, map_app in Hnd. simpl in Hnd.
  apply NoDup_remove_2 in Hnd. rewrite <- map_app in Hnd.
  assert (Hdb : exists u,
            terminalWrite (db sys) task outcome now
            = updateById (id task)
                (applyUpdate
                   match outcome with
                   | Resolved => COMPLETED | Rejected _ => FAILED end u)
                (db sys) /\
            u_started_at u = None /\ u_completed_at u = Some now /\
            u_error u = match outcome with
                        | Resolved => None | Rejected msg => Some msg end).
  { unfold terminalWrite, getTaskWithVersion. rewrite Hr. cbn [option_map].
    destruct outcome as [|msg]; eexists;
      (split; [by rewrite (updateTaskStatus_hit _ _ _ _ _ r Hwf Hr eq_refl)|]);
      done. }
  destruct Hdb as (u & -> & Hu1 & Hu2 & Hu3).
  eexists r, _. split; [done|]. split; [done|]. split.
  { rewrite selectById_updateById by apply applyUpdate_id.
    by rewrite String.eqb_refl, Hr. }
  simpl. rewrite Hu1, Hu2, Hu3.
  split; [done|]. split; [done|]. split; [by destruct outcome|].
  split; [done|]. split; [done|]. split; [set_solver|]. split; [done|].
  intros x Hx. rewrite selectById_updateById by apply applyUpdate_id.
  by destruct (String.eqb_spec (id task) x).
Qed.

Lemma settle_writes_outcome_witness :
  reachable 3 (run dependentSystem [EvTick (fun _ => 7)]) /\
  (exists task,
     nth_error (sleeping (run dependentSystem [EvTick (fun _ => 7)])) 0
     = Some task /\
     exists r r',
       selectById (db (run dependentSystem [EvTick (fun _ => 7)])) (id task)
       = Some r /\ row_status r = RUNNING /\
       selectById
         (db (step (run dependentSystem [EvTick (fun _ => 7)])
                   (EvSettle 0 (Rejected "boom") 9))) (id task)
       = Some r' /\ row_status r' = FAILED).
Proof.
  assert (Hreach : reachable 3 (run dependentSystem [EvTick (fun _ => 7)]))
    by (apply reachable_run, reachable_run, reach_main; constructor).
  split; [exact Hreach|].
  eexists. split; [vm_compute; reflexivity|].
  destruct (settle_writes_outcome 3 _ 0 _ (Rejected "boom") 9 Hreach eq_refl)
    as (r & r' & H1 & H2 & H3 & H4 & _).
  exists r, r'. repeat split; assumption.
Defined.

(** ** Starting and stopping *)

Lemma executeTask_isRunning sys task now :
  isRunning (executeTask sys task now) = isRunning sys.
Proof.
  unfold executeTask.
  destruct (getTaskWithVersion (db sys) (id task)) as [[? v]|]; [|done].
  destruct (updateTaskStatus _ _ _ _ _) as [s' claimed]. by destruct claimed.
Qed.

Lemma scheduleNextTasks_isRunning sys clock :
  isRunning (scheduleNextTasks sys clock) = isRunning sys.
Proof.
  rewrite scheduleNextTasks_fold. generalize (claimedBy sys). intros tasks.
  revert sys. induction tasks as [|t tasks IH]; intros sys; simpl; [done|].
  by rewrite IH, executeTask_isRunning.
Qed.

(** X17. [start()] leaves the executor running, and a second [start()]
    changes nothing: it neither recovers nor schedules again. *)
Theorem start_idempotent (sys : System) (clock clock' : string -> Z) :
  isRunning (start sys clock) = true /\
  start (start sys clock) clock' = start sys clock.
Proof.
  assert (Hrun : isRunning (start sys clock) = true).
  { unfold start. destruct (isRunning sys) eqn:E; [done|].
    by rewrite scheduleNextTasks_isRunning. }
  split; [done|]. unfold start at 1. by rewrite Hrun.
Qed.

Lemma removeAt_length {A : Type} (l : list A) i :
  (length (removeAt i l) <= length l)%nat.
Proof.
  revert i. induction l as [|x l IH]; intros [|i]; simpl; try lia.
  specialize (IH i). lia.
Qed.

Lemma Forall2_unclaimed_refl s : Forall2 unclaimed s s.
Proof. induction s; constructor; [by split | done]. Qed.

Lemma updateTaskStatus_unclaimed s taskId st v u :
  st <> RUNNING ->
  Forall2 unclaimed s (fst (updateTaskStatus s taskId st v u)).
Proof.
  intros Hst. unfold updateTaskStatus. simpl.
  induction s as [|r s IH]; simpl; constructor; [|done].
  by destruct (whereIdVersion taskId v r).
Qed.

Lemma terminalWrite_unclaimed s task outcome now :
  Forall2 unclaimed s (terminalWrite s task outcome now).
Proof.
  unfold terminalWrite.
  destruct (getTaskWithVersion s (id task)) as [[? v]|];
    [|apply Forall2_unclaimed_refl].
  destruct outcome; by apply updateTaskStatus_unclaimed.
Qed.

Lemma unclaimed_selectById s s' x r :
  Forall2 unclaimed s s' -> selectById s x = Some r ->
  exists r', selectById s' x = Some r' /\ unclaimed r r'.
Proof.
  intros H Hsel. unfold selectById in *.
  induction H as [|r0 r1 s s1 [Hid Hst] _ IH]; simpl in *; [done|].
  rewrite Hid. destruct (String.eqb (row_id r0) x).
  - injection Hsel as <-. by exists r1.
  - by apply IH.
Qed.

Lemma stopped_step sys ev :
  isRunning sys = false -> noRestart ev = true ->
  isRunning (step sys ev) = false /\
  (length (sleeping (step sys ev)) <= length (sleeping sys))%nat /\
  runningTasks (step sys ev) ⊆ runningTasks sys /\
  (forall t, In t (sleeping (step sys ev)) -> In t (sleeping sys)) /\
  (forall x r, selectById (db sys) x = Some r -> row_status r <> RUNNING ->
     exists r', selectById (db (step sys ev)) x = Some r' /\
                row_status r' <> RUNNING).
Proof.
  intros Hstop Hev.
  destruct ev as [taskInput now|clock|i outcome now| |clock]; [| | | |done].
  - simpl. split; [done|]. split; [done|]. split; [done|]. split; [done|].
    intros x r Hr Hst. exists r. split; [by apply selectById_submitTask|done].
  - simpl. unfold scheduleNextTasks. rewrite Hstop. simpl.
    split; [done|]. split; [done|]. split; [done|]. split; [done|].
    intros x r Hr Hst. by exists r.
  - simpl. destruct (nth_error (sleeping sys) i) as [task|] eqn:Hnth.
    + cbn [isRunning sleeping runningTasks db resumeTask].
      split; [done|]. split; [apply removeAt_length|].
      split; [set_solver|]. split; [intros t; apply removeAt_In|].
      intros x r Hr Hst.
      destruct (unclaimed_selectById _ _ _ _
                  (terminalWrite_unclaimed (db sys) task outcome now) Hr)
        as (r' & Hr' & _ & Hun).
      exists r'. split; [done|]. intros H. by apply Hst, Hun.
    + split; [done|]. split; [done|]. split; [done|]. split; [done|].
      intros x r Hr Hst. by exists r.
  - simpl. unfold stop. rewrite Hstop. simpl.
    split; [done|]. split; [done|]. split; [done|]. split; [done|].
    intros x r Hr Hst. by exists r.
Qed.

Lemma stop_isRunning sys : isRunning (stop sys) = false.
Proof. unfold stop. by destruct (isRunning sys) eqn:E. Qed.

(** X18. [stop()] halts the scheduling but not the suspended calls: as
    long as the process is not started again, no event sets a task RUNNING
    or adds a suspended call; the calls that exist may still resume and
    leave [runningTasks]. *)
Theorem stopped_scheduler_claims_nothing
    (sys : System) (evs : list Event)
    (Hevs : forallb noRestart evs = true) :
  let sys' := run (stop sys) evs in
  isRunning sys' = false /\
  (length (sleeping sys') <= length (sleeping sys))%nat /\
  runningTasks sys' ⊆ runningTasks sys /\
  (forall t, In t (sleeping sys') -> In t (sleeping sys)) /\
  (forall x r, selectById (db sys) x = Some r -> row_status r <> RUNNING ->
     exists r', selectById (db sys') x = Some r' /\ row_status r' <> RUNNING).
Proof.
  assert (Hgen : forall sys0, isRunning sys0 = false ->
    let sys' := run sys0 evs in
    isRunning sys' = false /\
    (length (sleeping sys') <= length (sleeping sys0))%nat /\
    runningTasks sys' ⊆ runningTasks sys0 /\
    (forall t, In t (sleeping sys') -> In t (sleeping sys0)) /\
    (forall x r, selectById (db sys0) x = Some r -> row_status r <> RUNNING ->
       exists r', selectById (db sys') x = Some r' /\
                  row_status r' <> RUNNING)).
  { unfold run. induction evs as [|ev evs IH]; intros sys0 Hstop; simpl.
    - split; [done|]. split; [done|]. split; [done|]. split; [done|].
      intros x r Hr Hst. by exists r.
    - simpl in Hevs. apply andb_true_iff in Hevs as [Hev Hevs].
      destruct (stopped_step sys0 ev Hstop Hev)
        as (H1 & H2 & H3 & H4 & H5).
      destruct (IH Hevs (step sys0 ev) H1) as (I1 & I2 & I3 & I4 & I5).
      split; [done|]. split; [lia|]. split; [set_solver|].
      split; [by intros t Ht; apply H4, I4|].
      intros x r Hr Hst. destruct (H5 x r Hr Hst) as (r1 & Hr1 & Hst1).
      by apply (I5 x r1). }
  destruct (Hgen (stop sys) (stop_isRunning sys)) as (G1 & G2 & G3 & G4 & G5).
  assert (Hsame : db (stop sys) = db sys /\ sleeping (stop sys) = sleeping sys
                  /\ runningTasks (stop sys) = runningTasks sys)
    by (unfold stop; by destruct (negb (isRunning sys))).
  destruct Hsame as (E1 & E2 & E3). rewrite E1, E2, E3 in *. done.
Qed.

Lemma stopped_scheduler_claims_nothing_witness :
  forallb noRestart [EvTick (fun _ => 7); EvSubmit (sampleInput "c" []) 8;
                     EvTick (fun _ => 9)] = true /\
  isRunning (run (stop dependentSystem)
                 [EvTick (fun _ => 7); EvSubmit (sampleInput "c" []) 8;
                  EvTick (fun _ => 9)]) = false.
Proof.
  split; [reflexivity|].
  exact (proj1 (stopped_scheduler_claims_nothing dependentSystem
                  [EvTick (fun _ => 7); EvSubmit (sampleInput "c" []) 8;
                   EvTick (fun _ => 9)] eq_refl)).
Defined.

(** ** [GET /stats] *)

(** X19. In every reachable state with a non-negative
    [maxConcurrentTasks], [GET /stats] reports as [currently_running] the
    ids of the suspended calls, as many as the [running] count of the
    table; [slots_available] is not negative, and [running] and
    [slots_available] add up to [max_concurrent_tasks]. *)
Theorem getStatsRoute_consistent
    (maxc : Z) (sys : System)
    (Hmaxc : 0 <= maxc) (Hreach : reachable maxc sys) :
  let resp := getStatsRoute sys in
  max_concurrent_tasks resp = maxc /\
  0 <= slots_available resp <= maxc /\
  running (stats resp) = Z.of_nat (length (currently_running resp)) /\
  running (stats resp) + slots_available resp = max_concurrent_tasks resp /\
  (forall x, In x (currently_running resp)
             <-> In x (map id (sleeping sys))).
Proof.
  destruct (reachable_bound maxc sys Hmaxc Hreach) as [Hmax Hsize].
  pose proof (reachable_consistent maxc sys Hreach) as Hc.
  pose proof Hc as (Hwf & Hnd & Hrun & _).
  pose proof (running_rows_are_sleeping sys Hc) as Hrows.
  assert (Hlen : length (sleeping sys) = size (runningTasks sys)).
  { rewrite Hrun, size_list_to_set by (by apply NoDup_ListNoDup).
    by rewrite length_map. }
  unfold getStatsRoute, getRunningTaskIds, getMaxConcurrentTasks. simpl.
  change (length (elements (runningTasks sys))) with (size (runningTasks sys)).
  rewrite numberOrZero_sqlSum, Hrows, Hlen, Hmax.
  split; [done|]. split; [lia|]. split; [done|]. split; [lia|].
  intros x. rewrite <- list_elem_of_In, elem_of_elements, Hrun.
  by rewrite elem_of_list_to_set, list_elem_of_In.
Qed.

Lemma getStatsRoute_consistent_witness :
  0 <= 3 /\ reachable 3 dependentSystem /\
  0 <= slots_available (getStatsRoute dependentSystem) <= 3.
Proof.
  assert (Hreach : reachable 3 dependentSystem)
    by (apply reachable_run, reach_main; constructor).
  split; [lia|]. split; [exact Hreach|].
  apply (getStatsRoute_consistent 3 dependentSystem); [lia | exact Hreach].
Defined.

(** ** Status changes *)

Lemma recoverOrphanedTasks_select s x r :
  store_wf s -> selectById s x = Some r ->
  selectById (recoverOrphanedTasks s) x
  = Some (if TaskStatus_eqb (row_status r) RUNNING then requeue r else r).
Proof.
  intros Hwf Hsel. apply selectById_Some in Hsel as [Hin <-].
  replace (row_id r)
    with (row_id (if TaskStatus_eqb (row_status r) RUNNING
                  then requeue r else r))
    by (by destruct (TaskStatus_eqb _ _)).
  apply selectById_wf; [by apply store_wf_recover|].
  rewrite recoverOrphanedTasks_map by done.
  apply in_map_iff. by exists r.
Qed.

Lemma scheduleNextTasks_select sys clock x r :
  store_wf (db sys) -> selectById (db sys) x = Some r ->
  selectById (db (scheduleNextTasks sys clock)) x = Some r \/
  ((row_status r = QUEUED \/ row_status r = WAITING) /\
   selectById (db (scheduleNextTasks sys clock)) x
   = Some (applyUpdate RUNNING (claimUpdates (clock x)) r)).
Proof.
  intros Hwf Hsel. rewrite scheduleNextTasks_fold.
  assert (Hstored : forall t, In t (claimedBy sys) ->
            is_Some (selectById (db sys) (id t))).
  { intros t Ht. destruct (claimedBy_stored sys t Hwf Ht) as (r0 & -> & _).
    by eexists. }
  pose proof (claimedBy_NoDup sys Hwf) as Hnd.
  destruct (in_dec string_dec x (map id (claimedBy sys))) as [Hin|Hnin].
  - right. apply in_map_iff in Hin as (t & <- & Ht).
    destruct (claimedBy_stored sys t Hwf Ht) as (r0 & Hr0 & _ & Hst & _).
    rewrite Hsel in Hr0. injection Hr0 as <-. split; [done|].
    by apply fold_executeTask_row.
  - left.
    destruct (fold_executeTask clock (claimedBy sys) sys Hwf Hnd Hstored)
      as (_ & _ & _ & _ & Hout & _).
    by rewrite Hout.
Qed.

Lemma allowedTransition_refl a : allowedTransition a a = true.
Proof. by destruct a. Qed.

Lemma main_select s maxc clock x r :
  store_wf s -> selectById s x = Some r ->
  exists r',
    selectById (db (main s maxc clock)) x = Some r' /\
    allowedTransition (row_status r) (row_status r') = true.
Proof.
  intros Hwf Hsel. rewrite main_unfold.
  pose proof (recoverOrphanedTasks_select s x r Hwf Hsel) as Hrec.
  set (sys1 := {| db := recoverOrphanedTasks s |}).
  destruct (scheduleNextTasks_select sys1 clock x _
              (store_wf_recover s Hwf) Hrec) as [Hsame|[Hst Hclaim]].
  - eexists. split; [exact Hsame|].
    destruct (row_status r) eqn:E; simpl; by rewrite ?E.
  - eexists. split; [exact Hclaim|]. simpl.
    destruct (row_status r) eqn:E; simpl in Hst; rewrite ?E in Hst;
      try done; by destruct Hst.
Qed.



(** X21. From a reachable state, one event changes the status of a
    stored task only along these edges: QUEUED or WAITING to RUNNING (a
    claim), RUNNING to COMPLETED or FAILED (a terminal write), RUNNING to
    QUEUED (recovery at a restart).  In particular WAITING never becomes
    QUEUED, and COMPLETED and FAILED never change. *)
Theorem status_changes_along_edges
    (maxc : Z) (sys : System) (ev : Event) (taskId : string) (r : Row)
    (Hreach : reachable maxc sys)
    (Hrow : selectById (db sys) taskId = Some r) :
  exists r',
    selectById (db (step sys ev)) taskId = Some r' /\
    allowedTransition (row_status r) (row_status r') = true.
Proof.
  apply reachable_consistent in Hreach as (Hwf & _ & _ & Hsl & _).
  destruct ev as [taskInput now|clock|i outcome now| |clock]; simpl.
  - exists r. split; [by apply selectById_submitTask|].
    apply allowedTransition_refl.
  - destruct (scheduleNextTasks_select sys clock taskId r Hwf Hrow)
      as [Hsame|[Hst Hclaim]]; eexists; (split; [eassumption|]).
    + apply allowedTransition_refl.
    + simpl. by destruct Hst as [-> | ->].
  - destruct (nth_error (sleeping sys) i) as [task|] eqn:Hnth;
      [|exists r; split; [done | apply allowedTransition_refl]].
    cbn [db resumeTask].
    destruct (terminalWrite_updateById (db sys) task outcome now Hwf)
      as (st & u & -> & ->).
    rewrite selectById_updateById by apply applyUpdate_id. rewrite Hrow.
    destruct (String.eqb_spec (id task) taskId) as [<-|Hne];
      [|exists r; split; [done | apply allowedTransition_refl]].
    eexists. split; [done|]. simpl.
    destruct (Hsl task) as (r0 & Hr0 & Hst0); [by eapply nth_error_In|].
    rewrite Hrow in Hr0. injection Hr0 as <-. rewrite Hst0.
    by destruct outcome.
  - exists r. split; [|apply allowedTransition_refl].
    unfold stop. by destruct (negb (isRunning sys)).
  - by apply main_select.
Qed.

Lemma status_changes_along_edges_witness :
  reachable 3 dependentSystem /\
  selectById (db dependentSystem) "b" = Some waitingRowB /\
  exists r',
    selectById (db (step dependentSystem (EvTick (fun _ => 7)))) "b"
    = Some r' /\
    allowedTransition WAITING (row_status r') = true.
Proof.
  assert (Hreach : reachable 3 dependentSystem)
    by (apply reachable_run, reach_main; constructor).
  assert (Hrow : selectById (db dependentSystem) "b" = Some waitingRowB)
    by (vm_compute; reflexivity).
  split; [exact Hreach|]. split; [exact Hrow|].
  exact (status_changes_along_edges 3 dependentSystem (EvTick (fun _ => 7))
           "b" waitingRowB Hreach Hrow).
Defined.
